(** * Dilepton selection for the ttbar analysis (PostAnalyzer/selection.h)

    A shallow embedding of the five routines of [selection.h]:
    the lepton quality filters [SelectEl] and [SelectMu] and the three pair
    selectors [SelectDilepEMu], [SelectDilepEE] and [SelectDilepMuMu].

    Numbers.  The C++ [double] is the primitive binary64 [float] of Rocq:
    comparisons, [TMath::Abs], products and sums are the IEEE 754 ones,
    including their behaviour on NaN and on the infinities.

    Four-vectors.  [TLorentzVector] belongs to ROOT, not to the analysis; the
    selectors are written over an interface ([LorentzOps]) with the four
    operations they call.  A reference implementation after ROOT's Cartesian
    representation is given in module [Root] and used to run the selectors on
    concrete events.

    State.  The selectors write through three reference parameters; they are
    embedded as functions from the value of these three on entry to their
    value on exit. *)

From Stdlib Require Import Floats ZArith NArith PArith List Bool Lia.
Import ListNotations.

Local Open Scope Z_scope.

(** A decimal literal denotes the nearest binary64 value, as it does for a
    C++ compiler. *)
Set Warnings "-inexact-float".

(* ================================================================== *)
(** * Event record *)

(** Modelled from the spec: [tree.h] (class [ZTree]) is not among the
    sources.  Only the branches read by [selection.h] are kept.  The
    kinematic and quality branches are floating-point arrays indexed by the
    candidate slot; the three hit branches are counts ("number of missing
    hits", "number of valid tracker hits", "number of valid pixel hits" in
    the data model), hence natural numbers.  An array is a total function of
    the slot: reading outside the populated slots is the caller's error and
    is not modelled. *)
Record ZTree : Type := {
  Nel : Z;
  elPt : Z -> float;
  elEta : Z -> float;
  elPhi : Z -> float;
  elIso03 : Z -> float;
  elMissHits : Z -> N;
  Nmu : Z;
  muPt : Z -> float;
  muEta : Z -> float;
  muPhi : Z -> float;
  muIso03 : Z -> float;
  muHitsValid : Z -> N;
  muHitsPixel : Z -> N;
  muDistPV0 : Z -> float;
  muDistPVz : Z -> float;
  muTrackChi2NDOF : Z -> float
}.

(** constants: electron and muon masses *)
Definition massEl : float := 0.000511%float.
Definition massMu : float := 0.105658%float.

(* ================================================================== *)
(** * Lepton quality filters *)

(** [x > y] of C++ on doubles. *)
Definition gtb (x y : float) : bool := (y <? x)%float.

Definition SelectEl (preselTree : ZTree) (el : Z) : bool :=
  if (abs (elPt preselTree el) <? 20.0)%float then false
  else if gtb (abs (elEta preselTree el)) 2.4%float then false
  else if gtb (elIso03 preselTree el) 0.17%float then false
  else if (0 <? elMissHits preselTree el)%N then false
  else true.

Definition SelectMu (preselTree : ZTree) (mu : Z) : bool :=
  if (abs (muPt preselTree mu) <? 20.0)%float then false
  else if gtb (abs (muEta preselTree mu)) 2.4%float then false
  else if gtb (muIso03 preselTree mu) 0.20%float then false
  else if (muHitsValid preselTree mu <? 12)%N || (muHitsPixel preselTree mu <? 2)%N
       then false
  else if gtb (muDistPV0 preselTree mu) 0.02%float
          || gtb (muDistPVz preselTree mu) 0.5%float
          || gtb (muTrackChi2NDOF preselTree mu) 10%float
       then false
  else true.

(* ================================================================== *)
(** * Four-vector interface *)

(** The part of ROOT's [TLorentzVector] that the selectors use:
    [SetPtEtaPhiM] on a fresh vector, [operator+], [M()] and [Pt()]. *)
Class LorentzOps : Type := {
  TLorentzVector : Type;
  SetPtEtaPhiM : float -> float -> float -> float -> TLorentzVector;
  lv_add : TLorentzVector -> TLorentzVector -> TLorentzVector;
  M : TLorentzVector -> float;
  Pt : TLorentzVector -> float
}.

(** The three outputs of a pair selector, passed by reference in C++. *)
Record Output `{LorentzOps} : Type := mkOutput {
  vecLepM : TLorentzVector;
  vecLepP : TLorentzVector;
  maxPtDiLep : float
}.

(* ================================================================== *)
(** * Counting loops *)

(** [for (int i = lo; i < hi; i++) s = body i s]: [n] iterations left. *)
Fixpoint for_loop {S : Type} (n : nat) (i : Z) (body : Z -> S -> S) (s : S) : S :=
  match n with
  | O => s
  | Datatypes.S n' => for_loop n' (i + 1) body (body i s)
  end.

Definition for_range {S : Type} (lo hi : Z) (body : Z -> S -> S) (s : S) : S :=
  for_loop (Z.to_nat (hi - lo)) lo body s.

(* ================================================================== *)
(** * Pair selectors *)

Section Selectors.
Context `{LorentzOps}.

(** Body of the muon loop of [SelectDilepEMu]; each [continue] returns the
    outputs as they are. *)
Definition emu_body (preselTree : ZTree) (el : Z) (thisEl : TLorentzVector)
           (mu : Z) (out : Output) : Output :=
  if gtb (elPt preselTree el * muPt preselTree mu)%float 0%float then out
  else if negb (SelectMu preselTree mu) then out
  else
    let thisMu := SetPtEtaPhiM (abs (muPt preselTree mu)) (muEta preselTree mu)
                               (muPhi preselTree mu) massMu in
    let vecDiLep := lv_add thisEl thisMu in
    if (M vecDiLep <? 12.0)%float then out
    else
      let sumPt := (Pt thisMu + Pt thisEl)%float in
      if (sumPt <? maxPtDiLep out)%float then out
      else
        {| maxPtDiLep := sumPt;
           vecLepM := if (elPt preselTree el <? 0)%float then thisEl else thisMu;
           vecLepP := if (elPt preselTree el <? 0)%float then thisMu else thisEl |}.

Definition SelectDilepEMu (preselTree : ZTree) (out : Output) : Output :=
  for_range 0 (Nel preselTree)
    (fun el out =>
       if negb (SelectEl preselTree el) then out
       else
         let thisEl := SetPtEtaPhiM (abs (elPt preselTree el)) (elEta preselTree el)
                                    (elPhi preselTree el) massEl in
         for_range 0 (Nmu preselTree) (emu_body preselTree el thisEl) out)
    out.

(** Body of the second-electron loop of [SelectDilepEE]. *)
Definition ee_body (preselTree : ZTree) (el1 : Z) (thisEl1 : TLorentzVector)
           (el2 : Z) (out : Output) : Output :=
  if gtb (elPt preselTree el1 * elPt preselTree el2)%float 0%float then out
  else if negb (SelectEl preselTree el2) then out
  else
    let thisEl2 := SetPtEtaPhiM (abs (elPt preselTree el2)) (elEta preselTree el2)
                                (elPhi preselTree el2) massEl in
    let vecDiLep := lv_add thisEl1 thisEl2 in
    if (M vecDiLep <? 12.0)%float then out
    else if gtb (M vecDiLep) 76.0%float && (M vecDiLep <? 106.0)%float then out
    else
      let sumPt := (Pt thisEl1 + Pt thisEl2)%float in
      if (sumPt <? maxPtDiLep out)%float then out
      else
        {| maxPtDiLep := sumPt;
           vecLepM := if (elPt preselTree el1 <? 0)%float then thisEl1 else thisEl2;
           vecLepP := if (elPt preselTree el1 <? 0)%float then thisEl2 else thisEl1 |}.

Definition SelectDilepEE (preselTree : ZTree) (out : Output) : Output :=
  for_range 0 (Nel preselTree)
    (fun el1 out =>
       if negb (SelectEl preselTree el1) then out
       else
         let thisEl1 := SetPtEtaPhiM (abs (elPt preselTree el1)) (elEta preselTree el1)
                                     (elPhi preselTree el1) massEl in
         for_range (el1 + 1) (Nel preselTree) (ee_body preselTree el1 thisEl1) out)
    out.

(** Body of the second-muon loop of [SelectDilepMuMu]. *)
Definition mumu_body (preselTree : ZTree) (mu1 : Z) (thisMu1 : TLorentzVector)
           (mu2 : Z) (out : Output) : Output :=
  if gtb (muPt preselTree mu1 * muPt preselTree mu2)%float 0%float then out
  else if negb (SelectMu preselTree mu2) then out
  else
    let thisMu2 := SetPtEtaPhiM (abs (muPt preselTree mu2)) (muEta preselTree mu2)
                                (muPhi preselTree mu2) massMu in
    let vecDiLep := lv_add thisMu1 thisMu2 in
    if (M vecDiLep <? 12.0)%float then out
    else if gtb (M vecDiLep) 76.0%float && (M vecDiLep <? 106.0)%float then out
    else
      let sumPt := (Pt thisMu1 + Pt thisMu2)%float in
      if (sumPt <? maxPtDiLep out)%float then out
      else
        {| maxPtDiLep := sumPt;
           vecLepM := if (muPt preselTree mu1 <? 0)%float then thisMu1 else thisMu2;
           vecLepP := if (muPt preselTree mu1 <? 0)%float then thisMu2 else thisMu1 |}.

Definition SelectDilepMuMu (preselTree : ZTree) (out : Output) : Output :=
  for_range 0 (Nmu preselTree)
    (fun mu1 out =>
       if negb (SelectMu preselTree mu1) then out
       else
         let thisMu1 := SetPtEtaPhiM (abs (muPt preselTree mu1)) (muEta preselTree mu1)
                                     (muPhi preselTree mu1) massMu in
         for_range (mu1 + 1) (Nmu preselTree) (mumu_body preselTree mu1 thisMu1) out)
    out.

End Selectors.

(* ================================================================== *)
(** * Pairs, as the selectors see them *)

Inductive Variant : Type := EMu | EE | MuMu.

Section Pairs.
Context `{LorentzOps}.

Definition SelectDilep (v : Variant) : ZTree -> Output -> Output :=
  match v with
  | EMu => SelectDilepEMu
  | EE => SelectDilepEE
  | MuMu => SelectDilepMuMu
  end.

(** Four-vector of electron [el] and of muon [mu], as every loop builds it. *)
Definition elVec (t : ZTree) (el : Z) : TLorentzVector :=
  SetPtEtaPhiM (abs (elPt t el)) (elEta t el) (elPhi t el) massEl.

Definition muVec (t : ZTree) (mu : Z) : TLorentzVector :=
  SetPtEtaPhiM (abs (muPt t mu)) (muEta t mu) (muPhi t mu) massMu.

(** The candidate of the outer loop and the candidate of the inner loop. *)
Definition pt1 (v : Variant) (t : ZTree) (i : Z) : float :=
  match v with EMu | EE => elPt t i | MuMu => muPt t i end.

Definition pt2 (v : Variant) (t : ZTree) (j : Z) : float :=
  match v with EMu | MuMu => muPt t j | EE => elPt t j end.

Definition vec1 (v : Variant) (t : ZTree) (i : Z) : TLorentzVector :=
  match v with EMu | EE => elVec t i | MuMu => muVec t i end.

Definition vec2 (v : Variant) (t : ZTree) (j : Z) : TLorentzVector :=
  match v with EMu | MuMu => muVec t j | EE => elVec t j end.

Definition quality1 (v : Variant) (t : ZTree) (i : Z) : bool :=
  match v with EMu | EE => SelectEl t i | MuMu => SelectMu t i end.

Definition quality2 (v : Variant) (t : ZTree) (j : Z) : bool :=
  match v with EMu | MuMu => SelectMu t j | EE => SelectEl t j end.

(** The slots a selector enumerates, in its order: electron by muon for
    e-mu, first index below second index for e-e and mu-mu. *)
Definition enumerated (v : Variant) (t : ZTree) (i j : Z) : Prop :=
  match v with
  | EMu => 0 <= i < Nel t /\ 0 <= j < Nmu t
  | EE => 0 <= i /\ i < j /\ j < Nel t
  | MuMu => 0 <= i /\ i < j /\ j < Nmu t
  end.

Definition pairMass (v : Variant) (t : ZTree) (i j : Z) : float :=
  M (lv_add (vec1 v t i) (vec2 v t j)).

(** Sum of the two transverse momenta, in the order the source adds them. *)
Definition sumPt (v : Variant) (t : ZTree) (i j : Z) : float :=
  match v with
  | EMu => (Pt (muVec t j) + Pt (elVec t i))%float
  | EE => (Pt (elVec t i) + Pt (elVec t j))%float
  | MuMu => (Pt (muVec t i) + Pt (muVec t j))%float
  end.

Definition sameSign (v : Variant) (t : ZTree) (i j : Z) : bool :=
  gtb (pt1 v t i * pt2 v t j)%float 0%float.

Definition belowMassFloor (v : Variant) (t : ZTree) (i j : Z) : bool :=
  (pairMass v t i j <? 12.0)%float.

Definition inZWindow (v : Variant) (t : ZTree) (i j : Z) : bool :=
  gtb (pairMass v t i j) 76.0%float && (pairMass v t i j <? 106.0)%float.

(** The window is tested by the same-flavour selectors only. *)
Definition zVeto (v : Variant) (t : ZTree) (i j : Z) : bool :=
  match v with EMu => false | EE | MuMu => inZWindow v t i j end.

(** A pair that reaches the comparison with [maxPtDiLep]: none of the
    [continue] statements before it is taken. *)
Definition validPair (v : Variant) (t : ZTree) (i j : Z) : bool :=
  quality1 v t i && negb (sameSign v t i j) && quality2 v t j
  && negb (belowMassFloor v t i j) && negb (zVeto v t i j).

(** What the three assignments at the end of a loop body store. *)
Definition selected (v : Variant) (t : ZTree) (i j : Z) : Output :=
  {| maxPtDiLep := sumPt v t i j;
     vecLepM := if (pt1 v t i <? 0)%float then vec1 v t i else vec2 v t j;
     vecLepP := if (pt1 v t i <? 0)%float then vec2 v t j else vec1 v t i |}.

(** The outputs [out] hold the pair ([i], [j]) sorted by charge: one member
    has a negative stored transverse momentum and is in [vecLepM], the other
    has a positive one and is in [vecLepP]. *)
Definition chargeSorted (v : Variant) (t : ZTree) (i j : Z) (out : Output) : Prop :=
  ((pt1 v t i <? 0)%float = true /\ gtb (pt2 v t j) 0%float = true
   /\ vecLepM out = vec1 v t i /\ vecLepP out = vec2 v t j)
  \/ ((pt2 v t j <? 0)%float = true /\ gtb (pt1 v t i) 0%float = true
      /\ vecLepM out = vec2 v t j /\ vecLepP out = vec1 v t i).

(** One pair, seen from outside the loops. *)
Definition pairStep (v : Variant) (t : ZTree) (i j : Z) (out : Output) : Output :=
  if validPair v t i j
  then if (sumPt v t i j <? maxPtDiLep out)%float then out else selected v t i j
  else out.

(** The body of the inner loop of variant [v], with the vector of the outer
    candidate built as the outer loop builds it. *)
Definition innerBody (v : Variant) (t : ZTree) (i j : Z) (out : Output) : Output :=
  match v with
  | EMu => emu_body t i (elVec t i) j out
  | EE => ee_body t i (elVec t i) j out
  | MuMu => mumu_body t i (muVec t i) j out
  end.

(** Bounds of the two loops of variant [v]. *)
Definition outerCount (v : Variant) (t : ZTree) : Z :=
  match v with EMu | EE => Nel t | MuMu => Nmu t end.

Definition innerCount (v : Variant) (t : ZTree) : Z :=
  match v with EMu | MuMu => Nmu t | EE => Nel t end.

Definition innerFirst (v : Variant) (i : Z) : Z :=
  match v with EMu => 0 | EE | MuMu => i + 1 end.

(** The two nested loops over [pairStep]. *)
Definition scan (v : Variant) (t : ZTree) (out : Output) : Output :=
  for_range 0 (outerCount v t)
    (fun i out => for_range (innerFirst v i) (innerCount v t) (pairStep v t i) out)
    out.

(** Several selectors run one after the other on the same outputs. *)
Definition chain (vs : list Variant) (t : ZTree) (out : Output) : Output :=
  fold_left (fun out v => SelectDilep v t out) vs out.

End Pairs.

(* ================================================================== *)
(** * Events that differ where the selectors do not look *)

(** The two events hold the same electrons: same count, same branches on the
    populated slots. *)
Definition sameElectrons (t1 t2 : ZTree) : Prop :=
  Nel t1 = Nel t2
  /\ forall i, 0 <= i < Nel t1 ->
       elPt t1 i = elPt t2 i /\ elEta t1 i = elEta t2 i /\ elPhi t1 i = elPhi t2 i
       /\ elIso03 t1 i = elIso03 t2 i /\ elMissHits t1 i = elMissHits t2 i.

Definition sameMuons (t1 t2 : ZTree) : Prop :=
  Nmu t1 = Nmu t2
  /\ forall i, 0 <= i < Nmu t1 ->
       muPt t1 i = muPt t2 i /\ muEta t1 i = muEta t2 i /\ muPhi t1 i = muPhi t2 i
       /\ muIso03 t1 i = muIso03 t2 i
       /\ muHitsValid t1 i = muHitsValid t2 i /\ muHitsPixel t1 i = muHitsPixel t2 i
       /\ muDistPV0 t1 i = muDistPV0 t2 i /\ muDistPVz t1 i = muDistPVz t2 i
       /\ muTrackChi2NDOF t1 i = muTrackChi2NDOF t2 i.

(** The same candidates of the flavours that variant [v] pairs. *)
Definition sameCandidates (v : Variant) (t1 t2 : ZTree) : Prop :=
  match v with
  | EMu => sameElectrons t1 t2 /\ sameMuons t1 t2
  | EE => sameElectrons t1 t2
  | MuMu => sameMuons t1 t2
  end.

(** The two events hold the same electrons but for those that [SelectEl]
    rejects in both. *)
Definition sameGoodElectrons (t1 t2 : ZTree) : Prop :=
  Nel t1 = Nel t2
  /\ forall i, 0 <= i < Nel t1 ->
       (SelectEl t1 i = false /\ SelectEl t2 i = false)
       \/ (elPt t1 i = elPt t2 i /\ elEta t1 i = elEta t2 i /\ elPhi t1 i = elPhi t2 i
           /\ elIso03 t1 i = elIso03 t2 i /\ elMissHits t1 i = elMissHits t2 i).

Definition sameGoodMuons (t1 t2 : ZTree) : Prop :=
  Nmu t1 = Nmu t2
  /\ forall i, 0 <= i < Nmu t1 ->
       (SelectMu t1 i = false /\ SelectMu t2 i = false)
       \/ (muPt t1 i = muPt t2 i /\ muEta t1 i = muEta t2 i /\ muPhi t1 i = muPhi t2 i
           /\ muIso03 t1 i = muIso03 t2 i
           /\ muHitsValid t1 i = muHitsValid t2 i /\ muHitsPixel t1 i = muHitsPixel t2 i
           /\ muDistPV0 t1 i = muDistPV0 t2 i /\ muDistPVz t1 i = muDistPVz t2 i
           /\ muTrackChi2NDOF t1 i = muTrackChi2NDOF t2 i).

Definition sameGoodCandidates (v : Variant) (t1 t2 : ZTree) : Prop :=
  match v with
  | EMu => sameGoodElectrons t1 t2 /\ sameGoodMuons t1 t2
  | EE => sameGoodElectrons t1 t2
  | MuMu => sameGoodMuons t1 t2
  end.

(** The event with every charge reversed: the stored transverse momenta
    change sign. *)
Definition conjugate (t : ZTree) : ZTree :=
  {| Nel := Nel t;
     elPt := fun i => (- elPt t i)%float;
     elEta := elEta t; elPhi := elPhi t; elIso03 := elIso03 t;
     elMissHits := elMissHits t;
     Nmu := Nmu t;
     muPt := fun i => (- muPt t i)%float;
     muEta := muEta t; muPhi := muPhi t; muIso03 := muIso03 t;
     muHitsValid := muHitsValid t; muHitsPixel := muHitsPixel t;
     muDistPV0 := muDistPV0 t; muDistPVz := muDistPVz t;
     muTrackChi2NDOF := muTrackChi2NDOF t |}.

(** The event seen in a mirror across the transverse plane: the
    pseudorapidities change sign. *)
Definition mirror (t : ZTree) : ZTree :=
  {| Nel := Nel t;
     elPt := elPt t;
     elEta := fun i => (- elEta t i)%float;
     elPhi := elPhi t; elIso03 := elIso03 t; elMissHits := elMissHits t;
     Nmu := Nmu t;
     muPt := muPt t;
     muEta := fun i => (- muEta t i)%float;
     muPhi := muPhi t; muIso03 := muIso03 t;
     muHitsValid := muHitsValid t; muHitsPixel := muHitsPixel t;
     muDistPV0 := muDistPV0 t; muDistPVz := muDistPVz t;
     muTrackChi2NDOF := muTrackChi2NDOF t |}.

(** The outputs with the two vectors exchanged. *)
Definition swapSlots `{LorentzOps} (out : Output) : Output :=
  {| vecLepM := vecLepP out; vecLepP := vecLepM out; maxPtDiLep := maxPtDiLep out |}.

(** Fewer candidates than a pair of variant [v] needs. *)
Definition tooFewCandidates (v : Variant) (t : ZTree) : Prop :=
  match v with
  | EMu => Nel t <= 0 \/ Nmu t <= 0
  | EE => Nel t <= 1
  | MuMu => Nmu t <= 1
  end.

(* ================================================================== *)
(** * Numbers among the doubles *)

(** [x] is a number: not NaN (the infinities are numbers here). *)
Definition is_num (x : float) : bool := (x =? x)%float.

(** [x] is NaN, or the test [ok] on it holds. *)
Definition nanOr (x : float) (ok : bool) : bool := negb (is_num x) || ok.

(** Exponent of the binary64 representation of 20.0 = 5 * 2^50 * 2^-48:
    a finite double of magnitude at least 20 has an exponent of at least
    this. *)
Definition exp20 : Z := -48.

(** Infinite, or finite with an exponent not below that of 20.0. *)
Definition sf_large (x : spec_float) : Prop :=
  match x with
  | S754_infinity _ => True
  | S754_finite _ _ e => exp20 <= e
  | _ => False
  end.

Definition sf_sign (x : spec_float) : bool :=
  match x with
  | S754_zero s | S754_infinity s | S754_finite s _ _ => s
  | S754_nan => false
  end.

(** Comparison of two finite magnitudes: exponents first. *)
Definition lexcmp (e1 : Z) (m1 : positive) (e2 : Z) (m2 : positive) : comparison :=
  match e1 ?= e2 with
  | Lt => Lt
  | Gt => Gt
  | Eq => Pos.compare_cont Eq m1 m2
  end.

Definition SFle (x y : spec_float) : Prop := SFleb x y = true.

(* ================================================================== *)
(** * A reference four-vector implementation *)

(** After ROOT's [TLorentzVector]: Cartesian momentum and energy.  The
    formulas are those of [SetPtEtaPhiM], [SetXYZM], [Perp] and [Mag]; the
    elementary functions of the C library are replaced by their power
    series cut after [terms] terms (for angles within [[-pi, pi]], after
    reduction by half a turn), exact at 0 and at [pi] and accurate to the
    last digits on the angles and pseudorapidities the events below use. *)
Module Root.

Local Open Scope float_scope.

Record XYZT : Type := { fX : float; fY : float; fZ : float; fE : float }.

Definition terms : nat := 24.

(** Adds to [acc] the [n] terms after [term], each obtained from the one
    before: [term * x2 / ((k + 1) * (k + 2))], with alternating sign when
    [alt] is set. *)
Fixpoint series (n : nat) (alt : bool) (x2 k term acc : float) : float :=
  match n with
  | O => acc
  | Datatypes.S n' =>
      let next := term * x2 / ((k + 1) * (k + 2)) in
      let next := if alt then - next else next in
      series n' alt x2 (k + 2) next (acc + next)
  end.

Definition pi : float := 3.141592653589793.

(** What [pi] lacks to the number pi. *)
Definition pi_low : float := 1.2246467991473532e-16.

(** Brings an angle of the outer quarters of [[-pi, pi]] back around 0 by
    half a turn; the flag tells that cosine and sine change sign. *)
Definition reduce (x : float) : bool * float :=
  if pi / 2 <? x then (true, x - pi - pi_low)
  else if x <? - (pi / 2) then (true, x + pi + pi_low)
  else (false, x).

Definition cos (x : float) : float :=
  let '(flip, r) := reduce x in
  let c := series terms true (r * r) 0 1 1 in
  if flip then - c else c.

Definition sin (x : float) : float :=
  let '(flip, r) := reduce x in
  let s := series terms true (r * r) 1 r r in
  if flip then - s else s.

Definition sinh (x : float) : float := series terms false (x * x) 1 x x.

Definition SetXYZM (x y z m : float) : XYZT :=
  if 0 <=? m
  then {| fX := x; fY := y; fZ := z; fE := sqrt (x * x + y * y + z * z + m * m) |}
  else
    let e2 := x * x + y * y + z * z - m * m in
    {| fX := x; fY := y; fZ := z; fE := sqrt (if 0 <=? e2 then e2 else 0) |}.

Definition SetPtEtaPhiM (pt eta phi m : float) : XYZT :=
  let pt := abs pt in
  SetXYZM (pt * cos phi) (pt * sin phi) (pt * sinh eta) m.

Definition plus (a b : XYZT) : XYZT :=
  {| fX := fX a + fX b; fY := fY a + fY b; fZ := fZ a + fZ b; fE := fE a + fE b |}.

Definition Pt (v : XYZT) : float := sqrt (fX v * fX v + fY v * fY v).

Definition Mag2 (v : XYZT) : float :=
  fE v * fE v - (fX v * fX v + fY v * fY v + fZ v * fZ v).

Definition M (v : XYZT) : float :=
  let mm := Mag2 v in
  if mm <? 0 then - sqrt (- mm) else sqrt mm.

End Root.

#[export] Instance RootOps : LorentzOps := {
  TLorentzVector := Root.XYZT;
  SetPtEtaPhiM := Root.SetPtEtaPhiM;
  lv_add := Root.plus;
  M := Root.M;
  Pt := Root.Pt
}.

(* ================================================================== *)
(** * Sample events *)

Module Sample.

Local Open Scope float_scope.

(** Array with the populated slots [l]; [d] elsewhere. *)
Definition arr {A : Type} (d : A) (l : list A) (i : Z) : A :=
  if (i <? 0)%Z then d else nth (Z.to_nat i) l d.

(** Electrons as (signed pt, eta, phi, isolation, missing hits). *)
Definition electron : Type := float * float * float * float * N.

(** Muons as (signed pt, eta, phi); every muon of the samples is isolated
    and well measured: 15 tracker hits, 3 pixel hits, impact parameters
    0.001 and 0.01, chi2/dof 1. *)
Definition muon : Type := float * float * float.

Definition event (els : list electron) (mus : list muon) : ZTree :=
  {| Nel := Z.of_nat (length els);
     elPt := arr 0 (map (fun e => let '(pt, _, _, _, _) := e in pt) els);
     elEta := arr 0 (map (fun e => let '(_, eta, _, _, _) := e in eta) els);
     elPhi := arr 0 (map (fun e => let '(_, _, phi, _, _) := e in phi) els);
     elIso03 := arr 0 (map (fun e => let '(_, _, _, iso, _) := e in iso) els);
     elMissHits := arr 0%N (map (fun e => let '(_, _, _, _, h) := e in h) els);
     Nmu := Z.of_nat (length mus);
     muPt := arr 0 (map (fun m => let '(pt, _, _) := m in pt) mus);
     muEta := arr 0 (map (fun m => let '(_, eta, _) := m in eta) mus);
     muPhi := arr 0 (map (fun m => let '(_, _, phi) := m in phi) mus);
     muIso03 := arr 0 (map (fun _ => 0.05) mus);
     muHitsValid := arr 0%N (map (fun _ => 15%N) mus);
     muHitsPixel := arr 0%N (map (fun _ => 3%N) mus);
     muDistPV0 := arr 0 (map (fun _ => 0.001) mus);
     muDistPVz := arr 0 (map (fun _ => 0.01) mus);
     muTrackChi2NDOF := arr 0 (map (fun _ => 1) mus) |}.

(** The outputs before any selection: null vectors and best sum [best]. *)
Definition fresh (best : float) : Output :=
  {| vecLepM := {| Root.fX := 0; Root.fY := 0; Root.fZ := 0; Root.fE := 0 |};
     vecLepP := {| Root.fX := 0; Root.fY := 0; Root.fZ := 0; Root.fE := 0 |};
     maxPtDiLep := best |}.

(** A negative electron of 30 GeV back to back with a positive muon of
    25 GeV. *)
Definition emuEvent : ZTree :=
  event [(-30, 0, 0, 0.05, 0%N)] [(25, 0, Root.pi)].

(** A negative electron of 25 GeV and two positive muons of 25 GeV each,
    both opposite to it in azimuth, at pseudorapidity 0 and 1. *)
Definition tieEvent : ZTree :=
  event [(-25, 0, 0, 0.05, 0%N)] [(25, 0, Root.pi); (25, 1, Root.pi)].

(** Two electrons of 45 GeV, opposite charge, back to back: mass 90. *)
Definition zEvent : ZTree :=
  event [(-45, 0, 0, 0.05, 0%N); (45, 0, Root.pi, 0.05, 0%N)] [].

(** The same with the positive lepton a muon. *)
Definition zLikeEMuEvent : ZTree :=
  event [(-45, 0, 0, 0.05, 0%N)] [(45, 0, Root.pi)].

(** Two muons of 45 GeV, opposite charge, back to back. *)
Definition zMuMuEvent : ZTree :=
  event [] [(-45, 0, 0); (45, 0, Root.pi)].

(** An electron whose transverse momentum is NaN and a positive muon. *)
Definition nanEvent : ZTree :=
  event [(nan, 0, 0, 0.05, 0%N)] [(25, 0, Root.pi)].

(** A muon whose transverse momentum is NaN. *)
Definition nanMuEvent : ZTree :=
  event [] [(nan, 0, 0)].

(** An electron and a muon of the same charge, back to back. *)
Definition sameSignEvent : ZTree :=
  event [(30, 0, 0, 0.05, 0%N)] [(25, 0, Root.pi)].

(** An electron and a muon of opposite charge flying along the same
    direction: a pair of low invariant mass. *)
Definition lowMassEvent : ZTree :=
  event [(-30, 0, 0, 0.05, 0%N)] [(25, 0, 0)].

(** The event [emuEvent] with one missing hit on the electron track. *)
Definition missingHitEvent : ZTree :=
  event [(-30, 0, 0, 0.05, 1%N)] [(25, 0, Root.pi)].

(** The event [t] with other values outside its populated slots. *)
Definition padded (t : ZTree) : ZTree :=
  let inEl (i : Z) := ((0 <=? i) && (i <? Nel t))%Z in
  let inMu (i : Z) := ((0 <=? i) && (i <? Nmu t))%Z in
  {| Nel := Nel t;
     elPt := fun i => if inEl i then elPt t i else 1000;
     elEta := fun i => if inEl i then elEta t i else 1;
     elPhi := fun i => if inEl i then elPhi t i else 2;
     elIso03 := fun i => if inEl i then elIso03 t i else nan;
     elMissHits := fun i => if inEl i then elMissHits t i else 7%N;
     Nmu := Nmu t;
     muPt := fun i => if inMu i then muPt t i else -1000;
     muEta := fun i => if inMu i then muEta t i else 1;
     muPhi := fun i => if inMu i then muPhi t i else 2;
     muIso03 := fun i => if inMu i then muIso03 t i else nan;
     muHitsValid := fun i => if inMu i then muHitsValid t i else 40%N;
     muHitsPixel := fun i => if inMu i then muHitsPixel t i else 4%N;
     muDistPV0 := fun i => if inMu i then muDistPV0 t i else 0;
     muDistPVz := fun i => if inMu i then muDistPVz t i else 0;
     muTrackChi2NDOF := fun i => if inMu i then muTrackChi2NDOF t i else 0 |}.

(** Outputs that already hold two vectors, with best sum [best]. *)
Definition filled (best : float) : Output :=
  {| vecLepM := {| Root.fX := 1; Root.fY := 2; Root.fZ := 3; Root.fE := 4 |};
     vecLepP := {| Root.fX := 5; Root.fY := 6; Root.fZ := 7; Root.fE := 10 |};
     maxPtDiLep := best |}.

(** A good electron-muon pair and a second electron with a missing hit, in
    two versions that differ in the kinematics of that electron. *)
Definition spectatorEvent : ZTree :=
  event [(-30, 0, 0, 0.05, 0%N); (-80, 1, 2, 0.05, 1%N)] [(25, 0, Root.pi)].

Definition otherSpectatorEvent : ZTree :=
  event [(-30, 0, 0, 0.05, 0%N); (500, -2, 1, 0.01, 3%N)] [(25, 0, Root.pi)].

(** Electron and muon at the thresholds of the quality cuts. *)
Definition thresholdEvent : ZTree :=
  {| Nel := 1;
     elPt := arr 0 [20.0]; elEta := arr 0 [2.4]; elPhi := arr 0 [0];
     elIso03 := arr 0 [0.17]; elMissHits := arr 0%N [0%N];
     Nmu := 1;
     muPt := arr 0 [20.0]; muEta := arr 0 [2.4]; muPhi := arr 0 [0];
     muIso03 := arr 0 [0.20];
     muHitsValid := arr 0%N [12%N]; muHitsPixel := arr 0%N [2%N];
     muDistPV0 := arr 0 [0.02]; muDistPVz := arr 0 [0.5];
     muTrackChi2NDOF := arr 0 [10] |}.

End Sample.

Import Sample.

(* ================================================================== *)
(** * Binary64 facts *)

(** ** Order of [spec_float] *)

Section SpecOrder.

Lemma lexcmp_spec (e1 : Z) (m1 : positive) (e2 : Z) (m2 : positive) :
  CompareSpec (e1 = e2 /\ m1 = m2)
              (e1 < e2 \/ (e1 = e2 /\ (m1 < m2)%positive))
              (e2 < e1 \/ (e1 = e2 /\ (m2 < m1)%positive))
              (lexcmp e1 m1 e2 m2).
Proof.
  unfold lexcmp. destruct (Z.compare_spec e1 e2) as [He | He | He].
  - change (Pos.compare_cont Eq m1 m2) with (Pos.compare m1 m2).
    destruct (Pos.compare_spec m1 m2); constructor; auto.
  - constructor; auto.
  - constructor; auto.
Qed.

Lemma lexcmp_neg (e1 : Z) (m1 : positive) (e2 : Z) (m2 : positive) :
  match e1 ?= e2 with
  | Lt => Gt
  | Gt => Lt
  | Eq => CompOpp (Pos.compare_cont Eq m1 m2)
  end = CompOpp (lexcmp e1 m1 e2 m2).
Proof. unfold lexcmp. destruct (e1 ?= e2); reflexivity. Qed.

Lemma lexcmp_swap (e1 : Z) (m1 : positive) (e2 : Z) (m2 : positive) :
  lexcmp e2 m2 e1 m1 = CompOpp (lexcmp e1 m1 e2 m2).
Proof.
  destruct (lexcmp_spec e2 m2 e1 m1), (lexcmp_spec e1 m1 e2 m2);
    simpl; try reflexivity; exfalso; lia.
Qed.

Lemma lexcmp_refl (e : Z) (m : positive) : lexcmp e m e m = Eq.
Proof. destruct (lexcmp_spec e m e m); try reflexivity; exfalso; lia. Qed.

(** [SFcompare] on two finite values, by sign. *)
Lemma SFcompare_finite (s1 : bool) (m1 : positive) (e1 : Z)
      (s2 : bool) (m2 : positive) (e2 : Z) :
  SFcompare (S754_finite s1 m1 e1) (S754_finite s2 m2 e2) =
  Some (match s1, s2 with
        | true, false => Lt
        | false, true => Gt
        | false, false => lexcmp e1 m1 e2 m2
        | true, true => CompOpp (lexcmp e1 m1 e2 m2)
        end).
Proof. destruct s1, s2; simpl; try reflexivity. now rewrite lexcmp_neg. Qed.

Lemma SFcompare_swap (x y : spec_float) :
  SFcompare y x = option_map CompOpp (SFcompare x y).
Proof.
  destruct x as [sx|sx| |sx mx ex], y as [sy|sy| |sy my ey];
    try (destruct sx); try (destruct sy); try reflexivity;
    rewrite !SFcompare_finite; simpl; rewrite (lexcmp_swap ex mx ey my);
    try reflexivity.
Qed.

Lemma SFcompare_refl (x : spec_float) :
  x <> S754_nan -> SFcompare x x = Some Eq.
Proof.
  destruct x as [[]|[]| |[] m e]; try reflexivity; try congruence;
    intros _; rewrite SFcompare_finite, lexcmp_refl; reflexivity.
Qed.

Lemma SFcompare_none (x y : spec_float) :
  SFcompare x y = None <-> x = S754_nan \/ y = S754_nan.
Proof.
  destruct x as [[]|[]| |[] mx ex], y as [[]|[]| |[] my ey]; simpl;
    split; intros Hc; try discriminate; try (destruct Hc; discriminate);
    auto.
Qed.

Lemma SFle_trans (x y z : spec_float) : SFle x y -> SFle y z -> SFle x z.
Proof.
  unfold SFle, SFleb.
  destruct x as [sx|sx| |sx mx ex], y as [sy|sy| |sy my ey],
           z as [sz|sz| |sz mz ez];
    try (destruct sx); try (destruct sy); try (destruct sz);
    try rewrite !SFcompare_finite; simpl; try easy;
    destruct (lexcmp_spec ex mx ey my), (lexcmp_spec ey my ez mz),
             (lexcmp_spec ex mx ez mz); simpl; try easy; exfalso; lia.
Qed.

End SpecOrder.

(** ** Order of the doubles *)

Section FloatOrder.

Local Open Scope float_scope.

Lemma is_num_spec (x : float) : is_num x = true <-> Prim2SF x <> S754_nan.
Proof.
  unfold is_num. rewrite FloatAxioms.eqb_spec. unfold SFeqb. split.
  - intros Hx Hn. rewrite Hn in Hx. discriminate.
  - intros Hn. now rewrite SFcompare_refl.
Qed.

Lemma is_num_false (x : float) : is_num x = false <-> Prim2SF x = S754_nan.
Proof.
  split; intros Hx.
  - destruct (Prim2SF x) eqn:E; try reflexivity;
      assert (Hn : is_num x = true) by (apply is_num_spec; congruence);
      congruence.
  - destruct (is_num x) eqn:E; [ | reflexivity ].
    apply is_num_spec in E. contradiction.
Qed.

Lemma ltb_is_num (x y : float) :
  (x <? y) = true -> is_num x = true /\ is_num y = true.
Proof.
  rewrite FloatAxioms.ltb_spec. unfold SFltb. intros Hc.
  split; apply is_num_spec; intros Hn; rewrite Hn in Hc;
    [ | destruct (Prim2SF x) ]; discriminate.
Qed.

Lemma leb_is_num (x y : float) :
  (x <=? y) = true -> is_num x = true /\ is_num y = true.
Proof.
  rewrite FloatAxioms.leb_spec. unfold SFleb. intros Hc.
  split; apply is_num_spec; intros Hn; rewrite Hn in Hc;
    [ | destruct (Prim2SF x) ]; discriminate.
Qed.

Lemma ltb_leb (x y : float) : (x <? y) = true -> (x <=? y) = true.
Proof.
  rewrite FloatAxioms.ltb_spec, FloatAxioms.leb_spec. unfold SFltb, SFleb.
  now destruct (SFcompare (Prim2SF x) (Prim2SF y)) as [[]|].
Qed.

Lemma ltb_false_leb (x y : float) :
  is_num x = true -> is_num y = true -> (x <? y) = false -> (y <=? x) = true.
Proof.
  intros Hx%is_num_spec Hy%is_num_spec.
  rewrite FloatAxioms.ltb_spec, FloatAxioms.leb_spec. unfold SFltb, SFleb.
  rewrite (SFcompare_swap (Prim2SF x) (Prim2SF y)).
  destruct (SFcompare (Prim2SF x) (Prim2SF y)) as [[]|] eqn:E; simpl; try easy.
  apply SFcompare_none in E. tauto.
Qed.

Lemma leb_ltb_false (x y : float) : (y <=? x) = true -> (x <? y) = false.
Proof.
  rewrite FloatAxioms.ltb_spec, FloatAxioms.leb_spec. unfold SFltb, SFleb.
  rewrite (SFcompare_swap (Prim2SF x) (Prim2SF y)).
  now destruct (SFcompare (Prim2SF x) (Prim2SF y)) as [[]|].
Qed.

Lemma leb_refl (x : float) : is_num x = true -> (x <=? x) = true.
Proof.
  intros Hx%is_num_spec. rewrite FloatAxioms.leb_spec. unfold SFleb.
  now rewrite SFcompare_refl.
Qed.

Lemma leb_trans (x y z : float) :
  (x <=? y) = true -> (y <=? z) = true -> (x <=? z) = true.
Proof. rewrite !FloatAxioms.leb_spec. apply SFle_trans. Qed.

Lemma is_num_abs (x : float) : is_num (abs x) = is_num x.
Proof.
  destruct (is_num x) eqn:E.
  - apply is_num_spec. apply is_num_spec in E. rewrite abs_spec.
    now destruct (Prim2SF x).
  - apply is_num_false. apply is_num_false in E. rewrite abs_spec.
    now rewrite E.
Qed.

End FloatOrder.

(** ** Sign of a product of two large doubles *)

Section Product.

Lemma digits2_pos_bound (m : positive) :
  2 ^ (Zpos (digits2_pos m) - 1) <= Zpos m.
Proof.
  induction m as [p IH | p IH | ]; simpl digits2_pos.
  - rewrite Pos2Z.inj_succ.
    replace (Z.succ (Zpos (digits2_pos p)) - 1) with (Z.succ (Zpos (digits2_pos p) - 1)) by lia.
    rewrite Z.pow_succ_r by lia. lia.
  - rewrite Pos2Z.inj_succ.
    replace (Z.succ (Zpos (digits2_pos p)) - 1) with (Z.succ (Zpos (digits2_pos p) - 1)) by lia.
    rewrite Z.pow_succ_r by lia. lia.
  - simpl. lia.
Qed.

Lemma shr_1_m (mrs : shr_record) :
  0 <= shr_m mrs -> shr_m (shr_1 mrs) = shr_m mrs / 2.
Proof.
  destruct mrs as [m r s]. cbn [shr_m shr_1]. intros Hm.
  destruct m as [ | [p | p | ] | p ]; cbn [shr_m]; try reflexivity; try lia.
  - apply Z.div_unique with (r := 1); lia.
  - apply Z.div_unique with (r := 0); lia.
Qed.

Lemma pow2_xO (p : positive) : 2 ^ Zpos p~0 = 2 ^ Zpos p * 2 ^ Zpos p.
Proof. rewrite <- Z.pow_add_r by lia. f_equal. lia. Qed.

Lemma pow2_xI (p : positive) : 2 ^ Zpos p~1 = 2 * (2 ^ Zpos p * 2 ^ Zpos p).
Proof.
  rewrite <- Z.pow_add_r, <- Z.pow_succ_r by lia. f_equal. lia.
Qed.

Lemma iter_shr_1_m (p : positive) (mrs : shr_record) :
  0 <= shr_m mrs ->
  shr_m (SpecFloat.iter_pos shr_1 p mrs) = shr_m mrs / 2 ^ Zpos p.
Proof.
  revert mrs.
  induction p as [p IH | p IH | ]; intros mrs Hm; simpl SpecFloat.iter_pos.
  - assert (H1 : 0 <= shr_m (shr_1 mrs))
      by (rewrite shr_1_m by assumption; apply Z.div_pos; lia).
    assert (H2 : 0 <= shr_m (SpecFloat.iter_pos shr_1 p (shr_1 mrs)))
      by (rewrite IH by assumption; apply Z.div_pos; lia).
    rewrite IH, IH, shr_1_m by assumption.
    rewrite !Z.div_div by lia.
    now rewrite pow2_xI, Z.mul_assoc.
  - assert (H2 : 0 <= shr_m (SpecFloat.iter_pos shr_1 p mrs))
      by (rewrite IH by assumption; apply Z.div_pos; lia).
    rewrite IH, IH by assumption.
    rewrite !Z.div_div by lia.
    now rewrite pow2_xO.
  - now rewrite shr_1_m.
Qed.

Lemma shr_m_of_loc (m : Z) (l : location) : shr_m (shr_record_of_loc m l) = m.
Proof. now destruct l as [ | [ | | ] ]. Qed.

(** Shifting a positive mantissa to the binary64 format keeps it
    positive when its exponent is not below the least one. *)
Lemma shr_fexp_pos (m : positive) (e : Z) (l : location) :
  SpecFloat.emin prec emax <= e ->
  0 < shr_m (fst (shr_fexp prec emax (Zpos m) e l))
  /\ e <= snd (shr_fexp prec emax (Zpos m) e l).
Proof.
  intros He. unfold shr_fexp, shr. simpl Zdigits2.
  destruct (fexp prec emax (Zpos (digits2_pos m) + e) - e) as [ | p | p ] eqn:En;
    simpl fst; simpl snd; rewrite ?shr_m_of_loc; try lia.
  split; [ | lia ].
  rewrite iter_shr_1_m by (rewrite shr_m_of_loc; lia).
  rewrite shr_m_of_loc.
  apply Z.div_str_pos. split; [ apply Z.pow_pos_nonneg; lia | ].
  unfold fexp in En. change prec with 53 in *.
  pose proof (digits2_pos_bound m) as Hd.
  assert (Hp : Zpos p <= Zpos (digits2_pos m) - 1) by lia.
  apply Z.le_trans with (2 ^ (Zpos (digits2_pos m) - 1)); [ | assumption ].
  apply Z.pow_le_mono_r; lia.
Qed.

Lemma round_nearest_even_ge (m : Z) (l : location) : m <= round_nearest_even m l.
Proof.
  destruct l as [ | [ | | ] ]; simpl; try lia. destruct (Z.even m); lia.
Qed.

(** Rounding a positive mantissa with such an exponent gives a finite
    value or an infinity of the sign asked for: never a zero. *)
Lemma binary_round_aux_sign (s : bool) (m : positive) (e : Z) (l : location) :
  SpecFloat.emin prec emax <= e ->
  sf_sign (binary_round_aux prec emax s (Zpos m) e l) = s
  /\ match binary_round_aux prec emax s (Zpos m) e l with
     | S754_infinity _ | S754_finite _ _ _ => True
     | _ => False
     end.
Proof.
  intros He. unfold binary_round_aux.
  destruct (shr_fexp_pos m e l He) as [Hm1 He1].
  destruct (shr_fexp prec emax (Zpos m) e l) as [mrs1 e1]. simpl in Hm1, He1.
  pose proof (round_nearest_even_ge (shr_m mrs1) (loc_of_shr_record mrs1)) as Hr.
  destruct (round_nearest_even (shr_m mrs1) (loc_of_shr_record mrs1)) as [ | m2 | m2 ];
    try lia.
  destruct (shr_fexp_pos m2 e1 loc_Exact ltac:(lia)) as [Hm3 He3].
  destruct (shr_fexp prec emax (Zpos m2) e1 loc_Exact) as [mrs3 e3].
  simpl in Hm3, He3.
  destruct (shr_m mrs3) as [ | m3 | m3 ]; try lia.
  destruct (e3 <=? emax - prec); simpl; auto.
Qed.

Lemma SFmul_large (x y : spec_float) :
  sf_large x -> sf_large y ->
  sf_sign (SF64mul x y) = xorb (sf_sign x) (sf_sign y)
  /\ match SF64mul x y with
     | S754_infinity _ | S754_finite _ _ _ => True
     | _ => False
     end.
Proof.
  destruct x as [sx|sx| |sx mx ex], y as [sy|sy| |sy my ey]; simpl;
    try contradiction; auto.
  unfold exp20. intros Hx Hy.
  apply binary_round_aux_sign. change (SpecFloat.emin prec emax) with (-1074). lia.
Qed.

End Product.

Section Charges.

Local Open Scope float_scope.

Lemma Prim2SF_20 : Prim2SF 20 = S754_finite false 5629499534213120 exp20.
Proof. vm_compute. reflexivity. Qed.

Lemma Prim2SF_0 : Prim2SF 0 = S754_zero false.
Proof. vm_compute. reflexivity. Qed.

(** A number that is not below 20 in magnitude is large. *)
Lemma large_of_abs (x : float) :
  is_num x = true -> (abs x <? 20) = false -> sf_large (Prim2SF x).
Proof.
  intros Hx%is_num_spec. rewrite FloatAxioms.ltb_spec, abs_spec, Prim2SF_20.
  generalize 5629499534213120%positive. intros m20.
  unfold SFltb. destruct (Prim2SF x) as [s|s| |s m e]; try easy.
  cbn [SFabs]. rewrite SFcompare_finite. cbn [sf_large].
  destruct (lexcmp_spec e m exp20 m20); try easy; lia.
Qed.

Lemma ltb_0_large (x : float) :
  sf_large (Prim2SF x) -> (x <? 0) = sf_sign (Prim2SF x).
Proof.
  rewrite FloatAxioms.ltb_spec, Prim2SF_0. unfold SFltb.
  now destruct (Prim2SF x) as [s|[]| |[] m e].
Qed.

Lemma gtb_0_large (x : float) :
  sf_large (Prim2SF x) -> gtb x 0 = negb (sf_sign (Prim2SF x)).
Proof.
  unfold gtb. rewrite FloatAxioms.ltb_spec, Prim2SF_0. unfold SFltb.
  now destruct (Prim2SF x) as [s|[]| |[] m e].
Qed.

Lemma gtb_0_mul_large (x y : float) :
  sf_large (Prim2SF x) -> sf_large (Prim2SF y) ->
  gtb (x * y) 0 = negb (xorb (sf_sign (Prim2SF x)) (sf_sign (Prim2SF y))).
Proof.
  intros Hx Hy. destruct (SFmul_large _ _ Hx Hy) as [Hs Hk].
  unfold gtb. rewrite FloatAxioms.ltb_spec, Prim2SF_0, mul_spec. unfold SFltb.
  rewrite <- Hs.
  now destruct (SF64mul (Prim2SF x) (Prim2SF y)) as [s|[]| |[] m e].
Qed.

(** Two numbers of magnitude at least 20 whose product is not positive:
    exactly one of them is negative, and the other one is positive. *)
Lemma opposite_charges (a b : float) :
  is_num a = true -> is_num b = true ->
  (abs a <? 20) = false -> (abs b <? 20) = false ->
  gtb (a * b) 0 = false ->
  (b <? 0) = negb (a <? 0) /\ gtb a 0 = negb (a <? 0) /\ gtb b 0 = (a <? 0).
Proof.
  intros Na Nb Ha Hb Hab.
  pose proof (large_of_abs a Na Ha) as La.
  pose proof (large_of_abs b Nb Hb) as Lb.
  rewrite gtb_0_mul_large in Hab by assumption.
  rewrite !ltb_0_large, !gtb_0_large by assumption.
  destruct (sf_sign (Prim2SF a)), (sf_sign (Prim2SF b)); simpl in *; auto;
    discriminate.
Qed.

End Charges.

(* ================================================================== *)
(** * Counting loops *)

Section Loops.
Context {S : Type}.
Variable body : Z -> S -> S.

Lemma for_loop_invariant (P : Z -> S -> Prop) (n : nat) (i : Z) (s : S) :
  P i s ->
  (forall k s', i <= k < i + Z.of_nat n -> P k s' -> P (k + 1) (body k s')) ->
  P (i + Z.of_nat n) (for_loop n i body s).
Proof.
  revert i s. induction n as [ | n IH ]; intros i s H0 Hstep.
  - replace (i + Z.of_nat 0) with i by lia. exact H0.
  - cbn [for_loop].
    replace (i + Z.of_nat (Datatypes.S n)) with ((i + 1) + Z.of_nat n) by lia.
    apply IH.
    + apply Hstep; [ lia | assumption ].
    + intros k s' Hk. apply Hstep. lia.
Qed.

(** An invariant indexed by the loop counter holds at the end, where the
    counter is [hi], or [lo] when the loop does not run. *)
Lemma for_range_invariant (P : Z -> S -> Prop) (lo hi : Z) (s : S) :
  P lo s ->
  (forall k s', lo <= k < hi -> P k s' -> P (k + 1) (body k s')) ->
  P (Z.max lo hi) (for_range lo hi body s).
Proof.
  intros H0 Hstep. unfold for_range.
  replace (Z.max lo hi) with (lo + Z.of_nat (Z.to_nat (hi - lo))) by lia.
  apply for_loop_invariant; [ assumption | ].
  intros k s' Hk. apply Hstep. lia.
Qed.

Lemma for_range_preserves (P : S -> Prop) (lo hi : Z) (s : S) :
  P s ->
  (forall k s', lo <= k < hi -> P s' -> P (body k s')) ->
  P (for_range lo hi body s).
Proof.
  intros H0 Hstep.
  apply (for_range_invariant (fun _ s' => P s')); assumption.
Qed.

Lemma for_range_idle (lo hi : Z) (s : S) :
  (forall k s', lo <= k < hi -> body k s' = s') ->
  for_range lo hi body s = s.
Proof.
  intros Hid. apply (for_range_preserves (fun s' => s' = s)); [ reflexivity | ].
  intros k s' Hk ->. now apply Hid.
Qed.

End Loops.

Lemma for_range_ext {S : Type} (body body' : Z -> S -> S) (lo hi : Z) (s : S) :
  (forall k s', lo <= k < hi -> body k s' = body' k s') ->
  for_range lo hi body s = for_range lo hi body' s.
Proof.
  intros Hext. unfold for_range.
  assert (Hgen : forall n i s0, lo <= i -> i + Z.of_nat n <= Z.max lo hi ->
                   for_loop n i body s0 = for_loop n i body' s0).
  { induction n as [ | n IH ]; intros i s0 Hlo Hhi; [ reflexivity | ].
    cbn [for_loop]. rewrite Hext by lia. apply IH; lia. }
  apply Hgen; lia.
Qed.

(* ================================================================== *)
(** * The selectors as scans over pairs *)

Section Scan.
Context `{LorentzOps}.

Lemma enumerated_bounds (v : Variant) (t : ZTree) (i j : Z) :
  enumerated v t i j <->
  0 <= i < outerCount v t /\ innerFirst v i <= j < innerCount v t.
Proof. destruct v; simpl; lia. Qed.

(** Inside the outer loop, past the filter of the outer candidate, the loop
    body is [pairStep]. *)
Lemma innerBody_pairStep (v : Variant) (t : ZTree) (i j : Z) (out : Output) :
  quality1 v t i = true ->
  innerBody v t i j out = pairStep v t i j out.
Proof.
  intros Hq. unfold pairStep, validPair. rewrite Hq.
  destruct v; simpl in *;
    unfold emu_body, ee_body, mumu_body, sameSign, belowMassFloor, zVeto,
           inZWindow, pairMass, selected, sumPt; simpl;
    unfold elVec, muVec;
    repeat match goal with
           | |- context [gtb ?a ?b] => destruct (gtb a b); simpl
           | |- context [SelectEl ?t ?j] => destruct (SelectEl t j); simpl
           | |- context [SelectMu ?t ?j] => destruct (SelectMu t j); simpl
           | |- context [(?a <? ?b)%float] => destruct (a <? b)%float; simpl
           end; reflexivity.
Qed.

Lemma pairStep_unqualified (v : Variant) (t : ZTree) (i j : Z) (out : Output) :
  quality1 v t i = false -> pairStep v t i j out = out.
Proof. intros Hq. unfold pairStep, validPair. now rewrite Hq. Qed.

Lemma outer_body_scan (v : Variant) (t : ZTree) (i : Z) (out : Output) :
  (if negb (quality1 v t i) then out
   else for_range (innerFirst v i) (innerCount v t) (innerBody v t i) out)
  = for_range (innerFirst v i) (innerCount v t) (pairStep v t i) out.
Proof.
  destruct (quality1 v t i) eqn:Hq; simpl.
  - apply for_range_ext. intros. now apply innerBody_pairStep.
  - symmetry. apply for_range_idle. intros. now apply pairStep_unqualified.
Qed.

Theorem SelectDilep_scan (v : Variant) (t : ZTree) (out : Output) :
  SelectDilep v t out = scan v t out.
Proof.
  unfold scan.
  destruct v; simpl SelectDilep;
    [ unfold SelectDilepEMu | unfold SelectDilepEE | unfold SelectDilepMuMu ];
    apply for_range_ext; intros i o' _.
  - apply (outer_body_scan EMu).
  - apply (outer_body_scan EE).
  - apply (outer_body_scan MuMu).
Qed.

End Scan.

Section ScanFacts.
Context `{LorentzOps}.

Lemma pairStep_cases (v : Variant) (t : ZTree) (i j : Z) (out : Output) :
  pairStep v t i j out = out
  \/ (validPair v t i j = true
      /\ (sumPt v t i j <? maxPtDiLep out)%float = false
      /\ pairStep v t i j out = selected v t i j).
Proof.
  unfold pairStep.
  destruct (validPair v t i j); [ | now left ].
  destruct (sumPt v t i j <? maxPtDiLep out)%float; [ now left | now right ].
Qed.

Lemma pairStep_skip (v : Variant) (t : ZTree) (i j : Z) (out : Output) :
  validPair v t i j = true ->
  pairStep v t i j out = out ->
  (sumPt v t i j <? maxPtDiLep out)%float = true \/ out = selected v t i j.
Proof.
  unfold pairStep. intros ->.
  destruct (sumPt v t i j <? maxPtDiLep out)%float; auto.
Qed.

(** A property kept by every step holds after the scan. *)
Lemma scan_preserves (P : Output -> Prop) (v : Variant) (t : ZTree) (out : Output) :
  P out ->
  (forall i j o, enumerated v t i j -> P o -> P (pairStep v t i j o)) ->
  P (scan v t out).
Proof.
  intros H0 Hstep. unfold scan.
  apply for_range_preserves; [ assumption | ].
  intros i o1 Hi P1. apply for_range_preserves; [ assumption | ].
  intros j o2 Hj P2. apply Hstep; [ | assumption ].
  apply enumerated_bounds. lia.
Qed.

(** What the step of a pair establishes, and the steps of the pairs
    enumerated after it keep, holds for every enumerated pair after the
    scan. *)
Lemma scan_visits (P : Output -> Prop) (R : Z -> Z -> Output -> Prop)
      (v : Variant) (t : ZTree) (out : Output) :
  P out ->
  (forall i j o, enumerated v t i j -> P o ->
                 P (pairStep v t i j o) /\ R i j (pairStep v t i j o)) ->
  (forall i j i' j' o, enumerated v t i' j' -> i < i' \/ (i = i' /\ j < j') ->
                       P o -> R i j o -> R i j (pairStep v t i' j' o)) ->
  P (scan v t out) /\ forall i j, enumerated v t i j -> R i j (scan v t out).
Proof.
  intros H0 Hstep Hkeep.
  pose (K := fun (k : Z) (o : Output) =>
               P o /\ forall i j, enumerated v t i j -> i < k -> R i j o).
  assert (HK : K (Z.max 0 (outerCount v t)) (scan v t out)).
  { unfold scan. apply (for_range_invariant _ K).
    - split; [ assumption | ]. intros i j Hij Hi.
      apply enumerated_bounds in Hij. lia.
    - intros k o1 Hk [P1 R1].
      pose (L := fun (k' : Z) (o : Output) =>
                   P o /\ (forall i j, enumerated v t i j -> i < k -> R i j o)
                   /\ (forall j, enumerated v t k j -> j < k' -> R k j o)).
      assert (HL : L (Z.max (innerFirst v k) (innerCount v t))
                     (for_range (innerFirst v k) (innerCount v t) (pairStep v t k) o1)).
      { apply (for_range_invariant _ L).
        - repeat split; try assumption. intros j Hj Hlt.
          apply enumerated_bounds in Hj. lia.
        - intros j o2 Hj (P2 & R2 & R3).
          assert (He : enumerated v t k j) by (apply enumerated_bounds; lia).
          destruct (Hstep k j o2 He P2) as [P3 R4].
          repeat split; try assumption.
          + intros i0 j0 H0' Hi0. apply Hkeep; auto.
          + intros j0 Hj0 Hlt.
            destruct (Z.eq_dec j0 j) as [-> | Hne]; [ assumption | ].
            apply Hkeep; auto; [ lia | ]. apply R3; [ assumption | lia ]. }
      destruct HL as (P2 & R2 & R3). split; [ assumption | ].
      intros i j Hij Hi.
      destruct (Z.eq_dec i k) as [-> | Hne].
      + apply R3; [ assumption | ]. apply enumerated_bounds in Hij. lia.
      + apply R2; [ assumption | lia ]. }
  destruct HK as [P1 R1]. split; [ assumption | ].
  intros i j Hij. apply R1; [ assumption | ].
  apply enumerated_bounds in Hij. lia.
Qed.

(** The scan keeps the running maximum of the sums of the valid pairs, as
    long as these sums and the value on entry are numbers. *)
Lemma scan_running_max (v : Variant) (t : ZTree) (out : Output) :
  is_num (maxPtDiLep out) = true ->
  (forall i j, enumerated v t i j -> validPair v t i j = true ->
               is_num (sumPt v t i j) = true) ->
  (is_num (maxPtDiLep (scan v t out)) = true
   /\ (maxPtDiLep out <=? maxPtDiLep (scan v t out))%float = true
   /\ (scan v t out = out
       \/ exists i j, enumerated v t i j /\ validPair v t i j = true
                      /\ scan v t out = selected v t i j))
  /\ forall i j, enumerated v t i j -> validPair v t i j = true ->
                 (sumPt v t i j <=? maxPtDiLep (scan v t out))%float = true.
Proof.
  intros Hnum Hsums.
  apply (scan_visits
           (fun o => is_num (maxPtDiLep o) = true
                     /\ (maxPtDiLep out <=? maxPtDiLep o)%float = true
                     /\ (o = out
                         \/ exists i j, enumerated v t i j /\ validPair v t i j = true
                                        /\ o = selected v t i j))
           (fun i j o => validPair v t i j = true ->
                         (sumPt v t i j <=? maxPtDiLep o)%float = true)).
  - repeat split; [ assumption | now apply leb_refl | now left ].
  - intros i j o Hij (No & Lo & Po).
    destruct (pairStep_cases v t i j o) as [Hs | (Hv & Hlt & Hs)].
    + rewrite Hs. repeat split; try assumption.
      intros Hv. destruct (pairStep_skip v t i j o Hv Hs) as [Hlt | ->].
      * now apply ltb_leb.
      * simpl. apply leb_refl. auto.
    + rewrite Hs. simpl.
      pose proof (Hsums i j Hij Hv) as Ns.
      repeat split.
      * assumption.
      * apply leb_trans with (maxPtDiLep o); [ assumption | ].
        now apply ltb_false_leb.
      * right. now exists i, j.
      * intros _. now apply leb_refl.
  - intros i j i' j' o Hij' _ (No & Lo & Po) Ro Hv.
    destruct (pairStep_cases v t i' j' o) as [Hs | (Hv' & Hlt & Hs)];
      rewrite Hs; [ auto | ].
    simpl. apply leb_trans with (maxPtDiLep o); [ auto | ].
    apply ltb_false_leb; auto.
Qed.

End ScanFacts.

(* ================================================================== *)
(** * One pass through a loop body *)

Section Body.
Context `{LorentzOps}.

Local Ltac split_tests :=
  unfold innerBody, emu_body, ee_body, mumu_body, sameSign, belowMassFloor,
         zVeto, inZWindow, pairMass, selected, sumPt, quality2, pt1, pt2,
         vec1, vec2, elVec, muVec;
  repeat match goal with
         | |- context [gtb ?a ?b] => destruct (gtb a b); simpl
         | |- context [SelectEl ?t ?j] => destruct (SelectEl t j); simpl
         | |- context [SelectMu ?t ?j] => destruct (SelectMu t j); simpl
         | |- context [(?a <? ?b)%float] => destruct (a <? b)%float; simpl
         end.

(** Either some [continue] is taken, or every test before the assignments
    fails and the assignments are made. *)
Lemma innerBody_cases (v : Variant) (t : ZTree) (i j : Z) (out : Output) :
  innerBody v t i j out = out
  \/ (sameSign v t i j = false /\ quality2 v t j = true
      /\ belowMassFloor v t i j = false /\ zVeto v t i j = false
      /\ (sumPt v t i j <? maxPtDiLep out)%float = false
      /\ innerBody v t i j out = selected v t i j).
Proof.
  destruct v; split_tests; auto; right; repeat split; reflexivity.
Qed.

Lemma innerBody_rejects (v : Variant) (t : ZTree) (i j : Z) (out : Output) :
  sameSign v t i j = true \/ quality2 v t j = false
  \/ belowMassFloor v t i j = true \/ zVeto v t i j = true
  \/ (sumPt v t i j <? maxPtDiLep out)%float = true ->
  innerBody v t i j out = out.
Proof.
  destruct v; split_tests; try reflexivity; intuition (try discriminate).
Qed.

Lemma innerBody_writes (v : Variant) (t : ZTree) (i j : Z) (out : Output) :
  innerBody v t i j out <> out ->
  sameSign v t i j = false /\ quality2 v t j = true
  /\ belowMassFloor v t i j = false /\ zVeto v t i j = false
  /\ (sumPt v t i j <? maxPtDiLep out)%float = false
  /\ innerBody v t i j out = selected v t i j.
Proof.
  intros Hne. destruct (innerBody_cases v t i j out) as [Heq | Hw];
    [ contradiction | assumption ].
Qed.

Lemma validPair_parts (v : Variant) (t : ZTree) (i j : Z) :
  validPair v t i j = true <->
  quality1 v t i = true /\ sameSign v t i j = false /\ quality2 v t j = true
  /\ belowMassFloor v t i j = false /\ zVeto v t i j = false.
Proof.
  unfold validPair.
  destruct (quality1 v t i), (sameSign v t i j), (quality2 v t j),
           (belowMassFloor v t i j), (zVeto v t i j); simpl; intuition congruence.
Qed.

End Body.

Section Irreflexive.
Local Open Scope float_scope.

Lemma ltb_irrefl (x : float) : (x <? x) = false.
Proof.
  rewrite FloatAxioms.ltb_spec. unfold SFltb.
  destruct (Prim2SF x) as [s|s| |s m e]; try reflexivity; try (now destruct s).
  rewrite SFcompare_refl by discriminate. reflexivity.
Qed.

Lemma leb_false_of_nan (x y : float) : is_num y = false -> (x <=? y) = false.
Proof.
  intros Hy. destruct (x <=? y) eqn:E; [ | reflexivity ].
  apply leb_is_num in E. destruct E. congruence.
Qed.

(** On numbers, [x <= y] exactly when not [y < x]. *)
Lemma leb_negb_ltb (x y : float) :
  is_num x = true -> is_num y = true -> (x <=? y) = negb (y <? x).
Proof.
  intros Hx Hy. destruct (y <? x) eqn:E; simpl.
  - destruct (x <=? y) eqn:E'; [ | reflexivity ].
    apply leb_ltb_false in E'. congruence.
  - now apply ltb_false_leb.
Qed.

End Irreflexive.

(* ================================================================== *)
(** * Properties of the selectors *)

Section Claims.
Context `{LorentzOps}.
Local Open Scope float_scope.

(** A pair that passes every cut is stored unless its sum is below the
    current best. *)
Lemma valid_pair_is_stored
      (v : Variant) (t : ZTree) (i j : Z) (out : Output) :
  validPair v t i j = true ->
  (sumPt v t i j <? maxPtDiLep out) = false ->
  innerBody v t i j out = selected v t i j.
Proof.
  intros Hv Hlt.
  assert (Hq : quality1 v t i = true) by (apply validPair_parts in Hv; tauto).
  rewrite (innerBody_pairStep v t i j out Hq). unfold pairStep.
  now rewrite Hv, Hlt.
Qed.

(** C1 (as the code has it).  The comparison with the best sum is
    [sumPt < maxPtDiLep]: a pair that passes every cut is skipped when its
    sum is strictly below the current best, and overwrites the three outputs
    otherwise; in particular a pair whose sum equals the current best
    replaces the pair found before it. *)
Theorem pair_skipped_only_when_strictly_below
        (v : Variant) (t : ZTree) (i j : Z) (out : Output) :
  validPair v t i j = true ->
  ((sumPt v t i j <? maxPtDiLep out) = true -> innerBody v t i j out = out)
  /\ ((sumPt v t i j <? maxPtDiLep out) = false ->
      innerBody v t i j out = selected v t i j)
  /\ (sumPt v t i j = maxPtDiLep out -> innerBody v t i j out = selected v t i j).
Proof.
  intros Hv.
  assert (Hq : quality1 v t i = true) by (apply validPair_parts in Hv; tauto).
  rewrite (innerBody_pairStep v t i j out Hq). unfold pairStep. rewrite Hv.
  repeat split.
  - now intros ->.
  - now intros ->.
  - intros <-. now rewrite ltb_irrefl.
Qed.

(** In the scan: a valid pair whose sum is not below the best sum on entry,
    not below the sum of any valid pair enumerated before it and above the
    sum of every valid pair enumerated after it, is the pair left in the
    outputs. *)
Lemma scan_last_best_pair (v : Variant) (t : ZTree) (out : Output) (a b : Z) :
  enumerated v t a b -> validPair v t a b = true ->
  (maxPtDiLep out <=? sumPt v t a b) = true ->
  (forall i j, enumerated v t i j -> validPair v t i j = true ->
               (i < a \/ (i = a /\ j < b))%Z ->
               (sumPt v t i j <=? sumPt v t a b) = true) ->
  (forall i j, enumerated v t i j -> validPair v t i j = true ->
               (a < i \/ (a = i /\ b < j))%Z ->
               (sumPt v t i j <? sumPt v t a b) = true) ->
  scan v t out = selected v t a b.
Proof.
  intros Hab Hvab Hinit Hbefore Hafter.
  destruct (leb_is_num _ _ Hinit) as [_ Nab].
  destruct (scan_visits
              (fun o => (maxPtDiLep o <=? sumPt v t a b) = true)
              (fun i j o => i = a -> j = b -> o = selected v t a b)
              v t out Hinit) as [_ Hsel].
  - intros i j o Hij Po.
    destruct (pairStep_cases v t i j o) as [Hs | (Hv & Hlt & Hs)]; rewrite Hs.
    + split; [ assumption | ]. intros -> ->.
      destruct (pairStep_skip v t a b o Hvab Hs) as [Hlt | ->]; [ | reflexivity ].
      apply leb_ltb_false in Po. congruence.
    + split; [ | now intros -> -> ]. simpl.
      destruct (Z.lt_trichotomy i a) as [Hi | [Hi | Hi]].
      * apply Hbefore; auto.
      * destruct (Z.lt_trichotomy j b) as [Hj | [Hj | Hj]].
        -- apply Hbefore; auto.
        -- subst i j. now apply leb_refl.
        -- apply ltb_leb. apply Hafter; auto.
      * apply ltb_leb. apply Hafter; auto.
  - intros i j i' j' o Hij' Hpos Po Ro -> ->.
    rewrite (Ro eq_refl eq_refl) in *.
    unfold pairStep. destruct (validPair v t i' j') eqn:Hv'; [ | reflexivity ].
    simpl. now rewrite (Hafter i' j' Hij' Hv' Hpos).
  - exact (Hsel a b Hab eq_refl eq_refl).
Qed.

(** Over a whole call: a valid pair whose sum is not below the value of
    [maxPtDiLep] on entry, not below the sum of any valid pair enumerated
    before it and above the sum of every valid pair enumerated after it, is
    the pair the call returns.  Among valid pairs of equal, greatest sum the
    call returns the one enumerated last. *)
Theorem last_best_pair_wins (v : Variant) (t : ZTree) (out : Output) (a b : Z) :
  enumerated v t a b -> validPair v t a b = true ->
  (maxPtDiLep out <=? sumPt v t a b) = true ->
  (forall i j, enumerated v t i j -> validPair v t i j = true ->
               (i < a \/ (i = a /\ j < b))%Z ->
               (sumPt v t i j <=? sumPt v t a b) = true) ->
  (forall i j, enumerated v t i j -> validPair v t i j = true ->
               (a < i \/ (a = i /\ b < j))%Z ->
               (sumPt v t i j <? sumPt v t a b) = true) ->
  SelectDilep v t out = selected v t a b.
Proof.
  intros Hab Hvab Hinit Hbefore Hafter. rewrite SelectDilep_scan.
  now apply scan_last_best_pair.
Qed.



(** C4.  Z veto.  The e-e and mu-mu selectors never select a pair whose
    invariant mass is above 76.0 and below 106.0: such a pair leaves the
    outputs untouched at its pass through the loop body, whatever they hold;
    a call on an event all of whose pairs are in the window returns the
    outputs as they were passed; and whatever a call returns, if not the
    outputs as passed, is a pair outside the window.  The e-mu selector has
    no such test: a call of it returns a pair inside the window when that
    pair passes the other cuts and has the best sum (not below the value on
    entry, not below the sums of the valid pairs before it, above those of
    the valid pairs after it). *)
Theorem z_window_vetoes_same_flavour_only (v : Variant) (t : ZTree) (out : Output) :
  (v <> EMu ->
   (forall i j o, inZWindow v t i j = true -> innerBody v t i j o = o)
   /\ ((forall i j, enumerated v t i j -> inZWindow v t i j = true) ->
       SelectDilep v t out = out)
   /\ (SelectDilep v t out = out
       \/ exists i j, enumerated v t i j /\ inZWindow v t i j = false
                      /\ SelectDilep v t out = selected v t i j))
  /\ (v = EMu ->
      forall i j,
        enumerated v t i j -> validPair v t i j = true ->
        inZWindow v t i j = true ->
        (maxPtDiLep out <=? sumPt v t i j) = true ->
        (forall i' j', enumerated v t i' j' -> validPair v t i' j' = true ->
                       (i' < i \/ (i' = i /\ j' < j))%Z ->
                       (sumPt v t i' j' <=? sumPt v t i j) = true) ->
        (forall i' j', enumerated v t i' j' -> validPair v t i' j' = true ->
                       (i < i' \/ (i = i' /\ j < j'))%Z ->
                       (sumPt v t i' j' <? sumPt v t i j) = true) ->
        SelectDilep v t out = selected v t i j).
Proof.
  split.
  - intros Hsf.
    assert (Hveto : forall i j, zVeto v t i j = inZWindow v t i j)
      by (destruct v; [ contradiction | reflexivity | reflexivity ]).
    split; [ | split ].
    + intros i j o Hwin. apply innerBody_rejects. rewrite Hveto. auto.
    + intros Hall. rewrite SelectDilep_scan.
      apply (scan_preserves (fun o => o = out)); [ reflexivity | ].
      intros i j o Hij ->. unfold pairStep.
      destruct (validPair v t i j) eqn:Hv; [ | reflexivity ].
      apply validPair_parts in Hv. destruct Hv as (_ & _ & _ & _ & Hz).
      rewrite Hveto, (Hall i j Hij) in Hz. discriminate.
    + rewrite SelectDilep_scan.
      apply (scan_preserves
               (fun o => o = out
                         \/ exists i j, enumerated v t i j /\ inZWindow v t i j = false
                                        /\ o = selected v t i j)); [ now left | ].
      intros i j o Hij Ho.
      destruct (pairStep_cases v t i j o) as [-> | (Hv & _ & ->)]; [ assumption | ].
      right. exists i, j. apply validPair_parts in Hv.
      destruct Hv as (_ & _ & _ & _ & Hz). rewrite Hveto in Hz. auto.
  - intros -> i j Hij Hv _ Hinit Hbefore Hafter. rewrite SelectDilep_scan.
    now apply scan_last_best_pair.
Qed.

(** C5 (as the code has it).  Mass floor.  A pair whose invariant mass
    compares below 12.0 is dropped before its sum is looked at, whatever the
    outputs hold; so a pair that changes the outputs has a mass that is not
    below 12.0: it is at least 12.0 exactly when it is a number. *)
Theorem mass_floor (v : Variant) (t : ZTree) (i j : Z) (out : Output) :
  (belowMassFloor v t i j = true -> innerBody v t i j out = out)
  /\ (innerBody v t i j out <> out ->
      (pairMass v t i j <? 12.0) = false
      /\ (12.0 <=? pairMass v t i j) = is_num (pairMass v t i j)).
Proof.
  split.
  - intros Hlow. apply innerBody_rejects. auto.
  - intros Hne. apply innerBody_writes in Hne.
    destruct Hne as (_ & _ & Hm & _). unfold belowMassFloor in Hm.
    split; [ assumption | ].
    destruct (is_num (pairMass v t i j)) eqn:Hn.
    + apply ltb_false_leb; auto.
    + now apply leb_false_of_nan.
Qed.

(** C6 (as the code has it).  Opposite charges.  A pair whose product of
    signed transverse momenta is above 0 is dropped at the first test of the
    loop body; so a pair that changes the outputs has a product that is not
    above 0: it is at most 0 exactly when it is a number. *)
Theorem same_sign_pairs_rejected (v : Variant) (t : ZTree) (i j : Z) (out : Output) :
  (gtb (pt1 v t i * pt2 v t j) 0 = true -> innerBody v t i j out = out)
  /\ (innerBody v t i j out <> out ->
      gtb (pt1 v t i * pt2 v t j) 0 = false
      /\ (pt1 v t i * pt2 v t j <=? 0) = is_num (pt1 v t i * pt2 v t j)).
Proof.
  split.
  - intros Hpos. apply innerBody_rejects. auto.
  - intros Hne. apply innerBody_writes in Hne.
    destruct Hne as (Hs & _). unfold sameSign in Hs.
    split; [ assumption | ].
    destruct (is_num (pt1 v t i * pt2 v t j)) eqn:Hn.
    + rewrite leb_negb_ltb by auto. fold (gtb (pt1 v t i * pt2 v t j) 0).
      now rewrite Hs.
    + destruct (pt1 v t i * pt2 v t j <=? 0) eqn:E; [ | reflexivity ].
      apply leb_is_num in E. destruct E. congruence.
Qed.

(** The signs of the two members of a pair that passes the cuts, when both
    stored transverse momenta are numbers: one is negative and the other
    one positive. *)
Lemma valid_pair_charges (v : Variant) (t : ZTree) (i j : Z) :
  quality1 v t i = true -> quality2 v t j = true -> sameSign v t i j = false ->
  is_num (pt1 v t i) = true -> is_num (pt2 v t j) = true ->
  (pt2 v t j <? 0) = negb (pt1 v t i <? 0)
  /\ gtb (pt1 v t i) 0 = negb (pt1 v t i <? 0)
  /\ gtb (pt2 v t j) 0 = (pt1 v t i <? 0).
Proof.
  intros Hq1 Hq2 Hs N1 N2.
  assert (H1 : (abs (pt1 v t i) <? 20) = false).
  { destruct v; simpl in *; unfold SelectEl, SelectMu in Hq1;
      match type of Hq1 with
      | (if ?b then _ else _) = _ => now destruct b
      end. }
  assert (H2 : (abs (pt2 v t j) <? 20) = false).
  { destruct v; simpl in *; unfold SelectEl, SelectMu in Hq2;
      match type of Hq2 with
      | (if ?b then _ else _) = _ => now destruct b
      end. }
  now apply opposite_charges.
Qed.

(** The assignments sort a pair that passed the cuts by charge, when its
    two stored transverse momenta are numbers. *)
Lemma selected_chargeSorted (v : Variant) (t : ZTree) (i j : Z) :
  quality1 v t i = true -> quality2 v t j = true -> sameSign v t i j = false ->
  is_num (pt1 v t i) = true -> is_num (pt2 v t j) = true ->
  chargeSorted v t i j (selected v t i j).
Proof.
  intros Hq1 Hq2 Hs N1 N2.
  destruct (valid_pair_charges v t i j Hq1 Hq2 Hs N1 N2) as (Hb & Ha & Hb').
  unfold chargeSorted, selected. simpl.
  destruct (pt1 v t i <? 0) eqn:E; simpl in *; [ left | right ]; auto.
Qed.

(** Over a whole call: the outputs come back as they were passed, or they
    are those of an enumerated pair that passed both quality filters, the
    charge test, the mass floor and, for e-e and mu-mu, the Z window. *)
Theorem returned_pair_passed_the_cuts (v : Variant) (t : ZTree) (out : Output) :
  SelectDilep v t out = out
  \/ exists i j,
      enumerated v t i j
      /\ SelectDilep v t out = selected v t i j
      /\ quality1 v t i = true /\ quality2 v t j = true
      /\ gtb (pt1 v t i * pt2 v t j) 0 = false
      /\ (pairMass v t i j <? 12.0) = false
      /\ (v <> EMu -> inZWindow v t i j = false).
Proof.
  rewrite SelectDilep_scan.
  apply (scan_preserves
           (fun o => o = out
                     \/ exists i j,
                         enumerated v t i j /\ o = selected v t i j
                         /\ quality1 v t i = true /\ quality2 v t j = true
                         /\ gtb (pt1 v t i * pt2 v t j) 0 = false
                         /\ (pairMass v t i j <? 12.0) = false
                         /\ (v <> EMu -> inZWindow v t i j = false)));
    [ now left | ].
  intros i j o Hij Ho.
  destruct (pairStep_cases v t i j o) as [-> | (Hv & _ & ->)]; [ assumption | ].
  right. exists i, j. apply validPair_parts in Hv.
  destruct Hv as (Hq1 & Hs & Hq2 & Hm & Hz).
  repeat split; try assumption.
  intros Hne. destruct v; [ contradiction | exact Hz | exact Hz ].
Qed.

(** C7 (as the code has it).  Charge assignment, on numbers.  When the
    stored transverse momenta of the enumerated candidates are numbers:
    every pass through a loop body (run, as in the selectors, past the
    filter of the outer candidate) that changes the outputs leaves in
    [vecLepM] the four-vector of the member with the negative stored
    transverse momentum and in [vecLepP] that of the other member, which is
    positive; hence a call that changes the outputs returns a pair sorted
    this way. *)
Theorem minus_slot_holds_negative_lepton (v : Variant) (t : ZTree) (out : Output) :
  (forall i j, enumerated v t i j ->
               is_num (pt1 v t i) = true /\ is_num (pt2 v t j) = true) ->
  (forall i j o, enumerated v t i j -> quality1 v t i = true ->
                 innerBody v t i j o <> o ->
                 chargeSorted v t i j (innerBody v t i j o))
  /\ (SelectDilep v t out = out
      \/ exists i j, enumerated v t i j
                     /\ chargeSorted v t i j (SelectDilep v t out)).
Proof.
  intros Hnum. split.
  - intros i j o Hij Hq1 Hne. apply innerBody_writes in Hne.
    destruct Hne as (Hs & Hq2 & _ & _ & _ & ->).
    destruct (Hnum i j Hij) as [N1 N2]. now apply selected_chargeSorted.
  - destruct (returned_pair_passed_the_cuts v t out)
      as [Hsame | (i & j & Hij & Hsel & Hq1 & Hq2 & Hs & _)]; [ now left | ].
    right. exists i, j. split; [ assumption | ].
    destruct (Hnum i j Hij) as [N1 N2]. rewrite Hsel.
    now apply selected_chargeSorted.
Qed.

(** C10 (as the code has it).  The best sum never decreases, on numbers.
    For selectors run one after the other on the same outputs (one selector
    alone is the chain of length one): if the value of [maxPtDiLep] on entry
    is a number and so is the sum of every valid pair of the variants run,
    the value on exit is at least the value on entry and at least the sum of
    every such pair, and it is the value on entry or one of these sums. *)
Theorem best_sum_never_decreases (vs : list Variant) (t : ZTree) (out : Output) :
  is_num (maxPtDiLep out) = true ->
  (forall v i j, In v vs -> enumerated v t i j -> validPair v t i j = true ->
                 is_num (sumPt v t i j) = true) ->
  (maxPtDiLep out <=? maxPtDiLep (chain vs t out)) = true
  /\ (forall v i j, In v vs -> enumerated v t i j -> validPair v t i j = true ->
                    (sumPt v t i j <=? maxPtDiLep (chain vs t out)) = true)
  /\ (maxPtDiLep (chain vs t out) = maxPtDiLep out
      \/ exists v i j, In v vs /\ enumerated v t i j /\ validPair v t i j = true
                       /\ maxPtDiLep (chain vs t out) = sumPt v t i j).
Proof.
  revert out. induction vs as [ | v vs IH ]; intros out Nout Hsums.
  - simpl. repeat split; [ now apply leb_refl | intros ? ? ? [] | now left ].
  - change (chain (v :: vs) t out) with (chain vs t (SelectDilep v t out)).
    rewrite SelectDilep_scan.
    destruct (scan_running_max v t out Nout) as ((Nmid & Hle & Hfrom) & Hmax).
    { intros i j. apply Hsums. now left. }
    destruct (IH (scan v t out) Nmid) as (Hle' & Hmax' & Hfrom').
    { intros v' i j Hin. apply Hsums. now right. }
    repeat split.
    + eapply leb_trans; eassumption.
    + intros v' i j [<- | Hin] Hij Hv.
      * eapply leb_trans; [ now apply Hmax | assumption ].
      * now apply Hmax'.
    + destruct Hfrom' as [-> | (v' & i & j & Hin & Hij & Hv & ->)].
      * destruct Hfrom as [-> | (i & j & Hij & Hv & ->)]; [ now left | ].
        right. exists v, i, j. simpl. auto.
      * right. exists v', i, j. simpl. auto.
Qed.

End Claims.

(* ================================================================== *)
(** * Properties of the quality filters *)

Section Filters.
Local Open Scope float_scope.

Lemma N_ltb_0_false (n : N) : (0 <? n)%N = false <-> n = 0%N.
Proof. rewrite N.ltb_ge. lia. Qed.

(** C8 (as the code has it).  For an electron whose transverse momentum,
    pseudorapidity and isolation are numbers, [SelectEl] answers true
    exactly when |pt| >= 20.0, |eta| <= 2.4, isolation <= 0.17 and there is
    no missing hit. *)
Theorem SelectEl_on_numbers (t : ZTree) (el : Z) :
  is_num (elPt t el) = true -> is_num (elEta t el) = true ->
  is_num (elIso03 t el) = true ->
  (SelectEl t el = true <->
   (20.0 <=? abs (elPt t el)) = true
   /\ (abs (elEta t el) <=? 2.4) = true
   /\ (elIso03 t el <=? 0.17) = true
   /\ elMissHits t el = 0%N).
Proof.
  intros Npt Neta Niso.
  rewrite <- N_ltb_0_false.
  rewrite !leb_negb_ltb by (rewrite ?is_num_abs; auto).
  unfold SelectEl, gtb.
  destruct (abs (elPt t el) <? 20.0), (2.4 <? abs (elEta t el)),
           (0.17 <? elIso03 t el), (0 <? elMissHits t el)%N; simpl;
    intuition congruence.
Qed.

(** C9 (as the code has it).  For a muon whose transverse momentum,
    pseudorapidity, isolation, impact parameters and chi-square per degree
    of freedom are numbers, [SelectMu] answers true exactly when
    |pt| >= 20.0, |eta| <= 2.4, isolation <= 0.20, at least 12 tracker hits,
    at least 2 pixel hits, transverse impact parameter <= 0.02,
    longitudinal impact parameter <= 0.5 and chi-square/dof <= 10. *)
Theorem SelectMu_on_numbers (t : ZTree) (mu : Z) :
  is_num (muPt t mu) = true -> is_num (muEta t mu) = true ->
  is_num (muIso03 t mu) = true -> is_num (muDistPV0 t mu) = true ->
  is_num (muDistPVz t mu) = true -> is_num (muTrackChi2NDOF t mu) = true ->
  (SelectMu t mu = true <->
   (20.0 <=? abs (muPt t mu)) = true
   /\ (abs (muEta t mu) <=? 2.4) = true
   /\ (muIso03 t mu <=? 0.20) = true
   /\ (12 <= muHitsValid t mu)%N
   /\ (2 <= muHitsPixel t mu)%N
   /\ (muDistPV0 t mu <=? 0.02) = true
   /\ (muDistPVz t mu <=? 0.5) = true
   /\ (muTrackChi2NDOF t mu <=? 10) = true).
Proof.
  intros Npt Neta Niso Nd0 Ndz Nchi.
  rewrite <- (N.ltb_ge (muHitsValid t mu) 12), <- (N.ltb_ge (muHitsPixel t mu) 2).
  rewrite !leb_negb_ltb by (rewrite ?is_num_abs; auto).
  unfold SelectMu, gtb.
  destruct (abs (muPt t mu) <? 20.0), (2.4 <? abs (muEta t mu)),
           (0.20 <? muIso03 t mu), (muHitsValid t mu <? 12)%N,
           (muHitsPixel t mu <? 2)%N, (0.02 <? muDistPV0 t mu),
           (0.5 <? muDistPVz t mu), (10 <? muTrackChi2NDOF t mu); simpl;
    intuition congruence.
Qed.

End Filters.

(* ================================================================== *)
(** * Further facts on the doubles *)

Section Signs.
Local Open Scope float_scope.

Lemma abs_opp (x : float) : abs (- x) = abs x.
Proof.
  apply Prim2SF_inj. rewrite !abs_spec, opp_spec.
  now destruct (Prim2SF x).
Qed.

Lemma mul_opp_opp (x y : float) : (- x) * (- y) = x * y.
Proof.
  apply Prim2SF_inj. rewrite !mul_spec, !opp_spec.
  destruct (Prim2SF x) as [[]|[]| |[] mx ex], (Prim2SF y) as [[]|[]| |[] my ey];
    reflexivity.
Qed.

Lemma ltb_opp_0 (x : float) : (- x <? 0) = gtb x 0.
Proof.
  unfold gtb. rewrite !FloatAxioms.ltb_spec, opp_spec, Prim2SF_0. unfold SFltb.
  now destruct (Prim2SF x) as [[]|[]| |[] m e].
Qed.

Lemma is_num_opp (x : float) : is_num (- x) = is_num x.
Proof.
  destruct (is_num x) eqn:E.
  - apply is_num_spec. apply is_num_spec in E. rewrite opp_spec.
    now destruct (Prim2SF x).
  - apply is_num_false. apply is_num_false in E. rewrite opp_spec.
    now rewrite E.
Qed.

(** A test [x < y] against a number fails exactly on NaN and on [y <= x]. *)
Lemma negb_ltb_nanOr (x y : float) :
  is_num y = true -> negb (x <? y) = nanOr x (y <=? x).
Proof.
  intros Hy. unfold nanOr. destruct (is_num x) eqn:Hx; simpl.
  - symmetry. now apply leb_negb_ltb.
  - destruct (x <? y) eqn:E; [ | reflexivity ].
    apply ltb_is_num in E. destruct E. congruence.
Qed.

(** A test [x > y] against a number fails exactly on NaN and on [x <= y]. *)
Lemma negb_gtb_nanOr (x y : float) :
  is_num y = true -> negb (gtb x y) = nanOr x (x <=? y).
Proof.
  intros Hy. unfold nanOr, gtb. destruct (is_num x) eqn:Hx; simpl.
  - symmetry. now apply leb_negb_ltb.
  - destruct (y <? x) eqn:E; [ | reflexivity ].
    apply ltb_is_num in E. destruct E. congruence.
Qed.

End Signs.

(* ================================================================== *)
(** * Two runs side by side *)

Lemma for_range_related {S T : Type} (Rel : S -> T -> Prop)
      (f : Z -> S -> S) (g : Z -> T -> T) (lo hi : Z) (s : S) (t : T) :
  Rel s t ->
  (forall k s' t', lo <= k < hi -> Rel s' t' -> Rel (f k s') (g k t')) ->
  Rel (for_range lo hi f s) (for_range lo hi g t).
Proof.
  intros H0 Hstep. unfold for_range.
  assert (Hgen : forall n i s0 t0, lo <= i -> i + Z.of_nat n <= Z.max lo hi ->
                   Rel s0 t0 -> Rel (for_loop n i f s0) (for_loop n i g t0)).
  { induction n as [ | n IH ]; intros i s0 t0 Hlo Hhi Hr; [ exact Hr | ].
    cbn [for_loop]. apply IH; [ lia | lia | ]. apply Hstep; [ lia | exact Hr ]. }
  apply Hgen; [ lia | lia | exact H0 ].
Qed.

Section SideBySide.
Context `{LorentzOps}.
Local Open Scope float_scope.

(** A relation between the outputs of two scans over the same slots, kept
    by every pair of steps, holds at the end. *)
Lemma scan_related (Rel : Output -> Output -> Prop)
      (v : Variant) (t t' : ZTree) (out out' : Output) :
  outerCount v t = outerCount v t' -> innerCount v t = innerCount v t' ->
  Rel out out' ->
  (forall i j a b, enumerated v t i j -> Rel a b ->
                   Rel (pairStep v t i j a) (pairStep v t' i j b)) ->
  Rel (scan v t out) (scan v t' out').
Proof.
  intros Ho Hi H0 Hstep. unfold scan. rewrite <- Ho, <- Hi.
  apply for_range_related; [ exact H0 | ].
  intros i a b Hir Hab. apply for_range_related; [ exact Hab | ].
  intros j a' b' Hjr Hab'. apply Hstep; [ | exact Hab' ].
  apply enumerated_bounds. lia.
Qed.

(** The step of a pair reads its two candidates only. *)
Lemma pairStep_sameCandidates (v : Variant) (t1 t2 : ZTree) (i j : Z) (out : Output) :
  sameCandidates v t1 t2 -> enumerated v t1 i j ->
  pairStep v t1 i j out = pairStep v t2 i j out.
Proof.
  intros Hsame Hij.
  assert (Hflds :
            quality1 v t1 i = quality1 v t2 i /\ quality2 v t1 j = quality2 v t2 j
            /\ pt1 v t1 i = pt1 v t2 i /\ pt2 v t1 j = pt2 v t2 j
            /\ vec1 v t1 i = vec1 v t2 i /\ vec2 v t1 j = vec2 v t2 j
            /\ sumPt v t1 i j = sumPt v t2 i j).
  { destruct v; simpl in Hsame, Hij |- *.
    - destruct Hsame as [[_ He] [_ Hm]].
      destruct (He i) as (E1 & E2 & E3 & E4 & E5); [ lia | ].
      destruct (Hm j) as (M1 & M2 & M3 & M4 & M5 & M6 & M7 & M8 & M9); [ lia | ].
      unfold SelectEl, SelectMu, elVec, muVec.
      now rewrite E1, E2, E3, E4, E5, M1, M2, M3, M4, M5, M6, M7, M8, M9.
    - destruct Hsame as [Hn He].
      destruct (He i) as (E1 & E2 & E3 & E4 & E5); [ lia | ].
      destruct (He j) as (F1 & F2 & F3 & F4 & F5); [ lia | ].
      unfold SelectEl, elVec.
      now rewrite E1, E2, E3, E4, E5, F1, F2, F3, F4, F5.
    - destruct Hsame as [Hn Hm].
      destruct (Hm i) as (M1 & M2 & M3 & M4 & M5 & M6 & M7 & M8 & M9); [ lia | ].
      destruct (Hm j) as (N1 & N2 & N3 & N4 & N5 & N6 & N7 & N8 & N9); [ lia | ].
      unfold SelectMu, muVec.
      now rewrite M1, M2, M3, M4, M5, M6, M7, M8, M9,
                  N1, N2, N3, N4, N5, N6, N7, N8, N9. }
  destruct Hflds as (Q1 & Q2 & P1 & P2 & V1 & V2 & Hsum).
  unfold pairStep, validPair, sameSign, belowMassFloor, zVeto, inZWindow,
         pairMass, selected.
  rewrite Q1, Q2, P1, P2, V1, V2, Hsum.
  destruct v; reflexivity.
Qed.

(** Reversing the charges changes none of the cuts on a pair. *)
Lemma validPair_conjugate (v : Variant) (t : ZTree) (i j : Z) :
  validPair v (conjugate t) i j = validPair v t i j
  /\ sumPt v (conjugate t) i j = sumPt v t i j
  /\ vec1 v (conjugate t) i = vec1 v t i
  /\ vec2 v (conjugate t) j = vec2 v t j.
Proof.
  assert (Hv1 : vec1 v (conjugate t) i = vec1 v t i)
    by (destruct v; simpl; unfold elVec, muVec; simpl; now rewrite abs_opp).
  assert (Hv2 : vec2 v (conjugate t) j = vec2 v t j)
    by (destruct v; simpl; unfold elVec, muVec; simpl; now rewrite abs_opp).
  assert (Hq1 : quality1 v (conjugate t) i = quality1 v t i)
    by (destruct v; simpl; unfold SelectEl, SelectMu; simpl; now rewrite abs_opp).
  assert (Hq2 : quality2 v (conjugate t) j = quality2 v t j)
    by (destruct v; simpl; unfold SelectEl, SelectMu; simpl; now rewrite abs_opp).
  assert (Hs : sameSign v (conjugate t) i j = sameSign v t i j)
    by (unfold sameSign; destruct v; simpl; now rewrite mul_opp_opp).
  assert (Hsum : sumPt v (conjugate t) i j = sumPt v t i j).
  { destruct v; simpl in Hv1, Hv2 |- *; now rewrite Hv1, Hv2. }
  repeat split; try assumption.
  unfold validPair, belowMassFloor, zVeto, inZWindow, pairMass.
  rewrite Hq1, Hq2, Hs, Hv1, Hv2. destruct v; reflexivity.
Qed.

End SideBySide.

(* ================================================================== *)
(** * Further properties of the selectors *)

Section Calls.
Context `{LorentzOps}.
Local Open Scope float_scope.

(** X1.  Too few candidates: a call on an event that lacks a candidate of a
    flavour the variant pairs (a count of zero or less) or, for e-e and
    mu-mu, that has a single candidate, returns the outputs as they were
    passed. *)
Theorem too_few_candidates_no_update (v : Variant) (t : ZTree) (out : Output) :
  tooFewCandidates v t -> SelectDilep v t out = out.
Proof.
  intros Hfew. rewrite SelectDilep_scan.
  apply (scan_preserves (fun o => o = out)); [ reflexivity | ].
  intros i j o Hij _. exfalso.
  destruct v; simpl in Hfew, Hij; lia.
Qed.

(** X2.  A call reads the populated slots of the flavours it pairs and
    nothing else: two events with the same counts and the same branches on
    these slots give the same outputs, whatever lies beyond the counts or in
    the branches of the other flavour. *)
Theorem call_reads_populated_slots_only
        (v : Variant) (t1 t2 : ZTree) (out : Output) :
  sameCandidates v t1 t2 -> SelectDilep v t1 out = SelectDilep v t2 out.
Proof.
  intros Hsame. rewrite !SelectDilep_scan.
  apply (scan_related eq).
  - destruct v; simpl in *; unfold sameElectrons, sameMuons in Hsame; tauto.
  - destruct v; simpl in *; unfold sameElectrons, sameMuons in Hsame; tauto.
  - reflexivity.
  - intros i j a b Hij <-. now apply pairStep_sameCandidates.
Qed.

(** X3.  The vectors passed in are never read: two calls on the same event
    with the same best sum on entry both return their outputs untouched, or
    return the same outputs. *)
Theorem entry_vectors_never_read (v : Variant) (t : ZTree) (out1 out2 : Output) :
  maxPtDiLep out1 = maxPtDiLep out2 ->
  (SelectDilep v t out1 = out1 /\ SelectDilep v t out2 = out2)
  \/ SelectDilep v t out1 = SelectDilep v t out2.
Proof.
  intros Hmax. rewrite !SelectDilep_scan.
  apply (scan_related (fun a b => (a = out1 /\ b = out2) \/ a = b));
    [ reflexivity | reflexivity | now left | ].
  intros i j a b Hij [[-> ->] | <-]; [ | now right ].
  unfold pairStep. rewrite Hmax.
  destruct (validPair v t i j); [ | now left ].
  destruct (sumPt v t i j <? maxPtDiLep out2); [ now left | now right ].
Qed.

(** X4.  What a call can return: the outputs as they were passed, or the
    vectors and the sum of one enumerated pair that passed every cut; for
    e-e and mu-mu the two members are distinct candidates, the first of
    lower index. *)
Theorem call_returns_entry_or_valid_pair (v : Variant) (t : ZTree) (out : Output) :
  SelectDilep v t out = out
  \/ exists i j,
      enumerated v t i j /\ validPair v t i j = true
      /\ (v <> EMu -> (i < j)%Z)
      /\ SelectDilep v t out = selected v t i j
      /\ maxPtDiLep (SelectDilep v t out) = sumPt v t i j.
Proof.
  rewrite SelectDilep_scan.
  apply (scan_preserves
           (fun o => o = out
                     \/ exists i j,
                         enumerated v t i j /\ validPair v t i j = true
                         /\ (v <> EMu -> (i < j)%Z)
                         /\ o = selected v t i j
                         /\ maxPtDiLep o = sumPt v t i j)); [ now left | ].
  intros i j o Hij Ho.
  destruct (pairStep_cases v t i j o) as [-> | (Hv & _ & ->)]; [ assumption | ].
  right. exists i, j. repeat split; try assumption.
  intros Hne. destruct v; simpl in Hij; [ contradiction | lia | lia ].
Qed.

(** X5.  A best sum on entry above the sum of every valid pair: the call
    returns the outputs as they were passed. *)
Theorem best_above_every_sum_no_update (v : Variant) (t : ZTree) (out : Output) :
  (forall i j, enumerated v t i j -> validPair v t i j = true ->
               (sumPt v t i j <? maxPtDiLep out) = true) ->
  SelectDilep v t out = out.
Proof.
  intros Habove. rewrite SelectDilep_scan.
  apply (scan_preserves (fun o => o = out)); [ reflexivity | ].
  intros i j o Hij ->. unfold pairStep.
  destruct (validPair v t i j) eqn:Hv; [ | reflexivity ].
  now rewrite (Habove i j Hij Hv).
Qed.

(** X6.  A valid pair whose sum is not below the best sum on entry: the
    call returns the vectors and the sum of a valid pair (this one or
    another). *)
Theorem valid_pair_not_below_entry_selects
        (v : Variant) (t : ZTree) (out : Output) (i j : Z) :
  enumerated v t i j -> validPair v t i j = true ->
  (sumPt v t i j <? maxPtDiLep out) = false ->
  exists i' j', enumerated v t i' j' /\ validPair v t i' j' = true
                /\ SelectDilep v t out = selected v t i' j'.
Proof.
  intros Hij Hv Hlt. rewrite SelectDilep_scan.
  pose (Sel := fun o : Output =>
                 exists i' j', enumerated v t i' j' /\ validPair v t i' j' = true
                               /\ o = selected v t i' j').
  destruct (scan_visits
              (fun o => o = out \/ Sel o)
              (fun a b o => a = i -> b = j -> Sel o)
              v t out) as [_ Hsel].
  - now left.
  - intros a b o Hab Po.
    destruct (pairStep_cases v t a b o) as [Hs | (Hv' & _ & Hs)]; rewrite Hs.
    + split; [ assumption | ]. intros -> ->.
      destruct (pairStep_skip v t i j o Hv Hs) as [Hlt' | ->].
      * destruct Po as [-> | Hsel]; [ congruence | assumption ].
      * now exists i, j.
    + assert (Hnew : Sel (selected v t a b)) by now exists a, b.
      split; [ now right | now intros _ _ ].
  - intros a b a' b' o Hab' _ Po Ro -> ->.
    destruct (pairStep_cases v t a' b' o) as [-> | (Hv' & _ & ->)]; [ now apply Ro | ].
    now exists a', b'.
  - exact (Hsel i j Hij eq_refl eq_refl).
Qed.

(** X8.  Running a selector again on its own outputs changes nothing, when
    the best sum on entry and the sums of the valid pairs are numbers. *)
Theorem selecting_twice_changes_nothing (v : Variant) (t : ZTree) (out : Output) :
  is_num (maxPtDiLep out) = true ->
  (forall i j, enumerated v t i j -> validPair v t i j = true ->
               is_num (sumPt v t i j) = true) ->
  SelectDilep v t (SelectDilep v t out) = SelectDilep v t out.
Proof.
  intros Nout Hsums. rewrite !SelectDilep_scan.
  destruct (scan_running_max v t out Nout Hsums) as ((Nfin & Hle & _) & Hmax).
  set (fin := scan v t out) in *.
  assert (Hrel : (scan v t fin = fin \/ scan v t fin = scan v t out)
                 /\ (maxPtDiLep (scan v t out) <=? maxPtDiLep fin) = true).
  { apply (scan_related
             (fun b a => (b = fin \/ b = a)
                         /\ (maxPtDiLep a <=? maxPtDiLep fin) = true));
      [ reflexivity | reflexivity | split; [ now left | exact Hle ] | ].
    intros i j b a Hij [Hba Ha].
    assert (Ha' : (maxPtDiLep (pairStep v t i j a) <=? maxPtDiLep fin) = true).
    { destruct (pairStep_cases v t i j a) as [-> | (Hv & _ & ->)]; [ exact Ha | ].
      simpl. now apply Hmax. }
    split; [ | exact Ha' ].
    destruct Hba as [-> | ->]; [ | now right ].
    unfold pairStep. destruct (validPair v t i j) eqn:Hv; [ | now left ].
    destruct (sumPt v t i j <? maxPtDiLep fin) eqn:Hlt; [ now left | ].
    right.
    assert (Hge : (maxPtDiLep a <=? sumPt v t i j) = true).
    { apply leb_trans with (maxPtDiLep fin); [ exact Ha | ].
      apply ltb_false_leb; auto. }
    now rewrite (leb_ltb_false _ _ Hge). }
  destruct Hrel as [[Hfix | Hfix] _]; [ exact Hfix | ].
  exact Hfix.
Qed.

(** The assignments on the event with reversed charges exchange the two
    vectors, for a pair that passed the cuts and whose stored transverse
    momenta are numbers. *)
Lemma selected_conjugate (v : Variant) (t : ZTree) (i j : Z) :
  validPair v t i j = true ->
  is_num (pt1 v t i) = true -> is_num (pt2 v t j) = true ->
  selected v (conjugate t) i j = swapSlots (selected v t i j).
Proof.
  intros Hv N1 N2. apply validPair_parts in Hv.
  destruct Hv as (Hq1 & Hs & Hq2 & _).
  destruct (valid_pair_charges v t i j Hq1 Hq2 Hs N1 N2) as (_ & Hpos & _).
  destruct (validPair_conjugate v t i j) as (_ & Hsum & Hv1 & Hv2).
  unfold selected, swapSlots. simpl. rewrite Hsum, Hv1, Hv2.
  assert (Hneg : (pt1 v (conjugate t) i <? 0) = negb (pt1 v t i <? 0)).
  { rewrite <- Hpos. destruct v; simpl; apply ltb_opp_0. }
  rewrite Hneg. now destruct (pt1 v t i <? 0).
Qed.

(** X9.  Charge symmetry.  On an event whose stored transverse momenta are
    numbers, reversing every charge exchanges [vecLepM] and [vecLepP] and
    leaves [maxPtDiLep] as it is: the call on the reversed event, entered
    with the two vectors exchanged, returns the outputs of the call on the
    event with the two vectors exchanged. *)
Theorem charge_reversal_swaps_slots (v : Variant) (t : ZTree) (out : Output) :
  (forall i j, enumerated v t i j ->
               is_num (pt1 v t i) = true /\ is_num (pt2 v t j) = true) ->
  SelectDilep v (conjugate t) (swapSlots out) = swapSlots (SelectDilep v t out).
Proof.
  intros Hnum. rewrite !SelectDilep_scan. symmetry.
  apply (scan_related (fun a b => swapSlots a = b));
    [ now destruct v | now destruct v | reflexivity | ].
  intros i j a b Hij <-.
  destruct (validPair_conjugate v t i j) as (Hv & Hsum & _).
  unfold pairStep. rewrite Hv, Hsum. simpl.
  destruct (validPair v t i j) eqn:Hvalid; [ | reflexivity ].
  destruct (sumPt v t i j <? maxPtDiLep a); [ reflexivity | ].
  destruct (Hnum i j Hij) as [N1 N2]. symmetry.
  now apply selected_conjugate.
Qed.

(** X13.  The choice of the initial best sum does not matter below the
    sums: two calls on the same event, each entered with a best sum below
    the sum of every valid pair, return the same outputs (or both return
    theirs untouched, when no pair is valid). *)
Theorem sentinel_choice_is_irrelevant (v : Variant) (t : ZTree) (out1 out2 : Output) :
  (forall i j, enumerated v t i j -> validPair v t i j = true ->
               (maxPtDiLep out1 <? sumPt v t i j) = true
               /\ (maxPtDiLep out2 <? sumPt v t i j) = true) ->
  (SelectDilep v t out1 = out1 /\ SelectDilep v t out2 = out2)
  \/ SelectDilep v t out1 = SelectDilep v t out2.
Proof.
  intros Hbelow. rewrite !SelectDilep_scan.
  apply (scan_related (fun a b => (a = out1 /\ b = out2) \/ a = b));
    [ reflexivity | reflexivity | now left | ].
  intros i j a b Hij [[-> ->] | <-]; [ | now right ].
  unfold pairStep. destruct (validPair v t i j) eqn:Hv; [ | now left ].
  destruct (Hbelow i j Hij Hv) as [H1 H2].
  rewrite (leb_ltb_false _ _ (ltb_leb _ _ H1)), (leb_ltb_false _ _ (ltb_leb _ _ H2)).
  now right.
Qed.

(** A pair one member of which fails its filter is stepped over. *)
Lemma pairStep_rejected (v : Variant) (t : ZTree) (i j : Z) (out : Output) :
  quality1 v t i = false \/ quality2 v t j = false ->
  pairStep v t i j out = out.
Proof.
  intros Hrej. unfold pairStep.
  destruct (validPair v t i j) eqn:Hv; [ | reflexivity ].
  apply validPair_parts in Hv. destruct Hv as (Hq1 & _ & Hq2 & _).
  destruct Hrej; congruence.
Qed.

(** The step of a pair of candidates that are the same in two events, or
    rejected in both, is the same. *)
Lemma pairStep_sameGoodCandidates
      (v : Variant) (t1 t2 : ZTree) (i j : Z) (out : Output) :
  sameGoodCandidates v t1 t2 -> enumerated v t1 i j ->
  pairStep v t1 i j out = pairStep v t2 i j out.
Proof.
  intros Hsame Hij.
  assert (Hcases :
            (quality1 v t1 i = false /\ quality1 v t2 i = false)
            \/ (quality2 v t1 j = false /\ quality2 v t2 j = false)
            \/ (quality1 v t1 i = quality1 v t2 i /\ quality2 v t1 j = quality2 v t2 j
                /\ pt1 v t1 i = pt1 v t2 i /\ pt2 v t1 j = pt2 v t2 j
                /\ vec1 v t1 i = vec1 v t2 i /\ vec2 v t1 j = vec2 v t2 j
                /\ sumPt v t1 i j = sumPt v t2 i j)).
  { destruct v; simpl in Hsame, Hij |- *.
    - destruct Hsame as [[_ He] [_ Hm]].
      destruct (He i) as [Hr | (E1 & E2 & E3 & E4 & E5)]; [ lia | now left | ].
      destruct (Hm j) as [Hr | (M1 & M2 & M3 & M4 & M5 & M6 & M7 & M8 & M9)];
        [ lia | right; now left | ].
      right; right. unfold SelectEl, SelectMu, elVec, muVec.
      now rewrite E1, E2, E3, E4, E5, M1, M2, M3, M4, M5, M6, M7, M8, M9.
    - destruct Hsame as [Hn He].
      destruct (He i) as [Hr | (E1 & E2 & E3 & E4 & E5)]; [ lia | now left | ].
      destruct (He j) as [Hr | (F1 & F2 & F3 & F4 & F5)];
        [ lia | right; now left | ].
      right; right. unfold SelectEl, elVec.
      now rewrite E1, E2, E3, E4, E5, F1, F2, F3, F4, F5.
    - destruct Hsame as [Hn Hm].
      destruct (Hm i) as [Hr | (M1 & M2 & M3 & M4 & M5 & M6 & M7 & M8 & M9)];
        [ lia | now left | ].
      destruct (Hm j) as [Hr | (N1 & N2 & N3 & N4 & N5 & N6 & N7 & N8 & N9)];
        [ lia | right; now left | ].
      right; right. unfold SelectMu, muVec.
      now rewrite M1, M2, M3, M4, M5, M6, M7, M8, M9,
                  N1, N2, N3, N4, N5, N6, N7, N8, N9. }
  destruct Hcases as [[Ha Hb] | [[Ha Hb] | (Q1 & Q2 & P1 & P2 & V1 & V2 & Hsum)]].
  - rewrite !pairStep_rejected; auto.
  - rewrite !pairStep_rejected; auto.
  - unfold pairStep, validPair, sameSign, belowMassFloor, zVeto, inZWindow,
           pairMass, selected.
    rewrite Q1, Q2, P1, P2, V1, V2, Hsum.
    destruct v; reflexivity.
Qed.

(** X14.  A candidate that fails its quality filter has no influence on the
    outputs: two events with the same counts whose candidates are the same
    slot by slot, but for those that the filter rejects in both events, give
    the same outputs. *)
Theorem rejected_candidates_have_no_influence
        (v : Variant) (t1 t2 : ZTree) (out : Output) :
  sameGoodCandidates v t1 t2 -> SelectDilep v t1 out = SelectDilep v t2 out.
Proof.
  intros Hsame. rewrite !SelectDilep_scan.
  apply (scan_related eq).
  - destruct v; simpl in *; unfold sameGoodElectrons, sameGoodMuons in Hsame; tauto.
  - destruct v; simpl in *; unfold sameGoodElectrons, sameGoodMuons in Hsame; tauto.
  - reflexivity.
  - intros i j a b Hij <-. now apply pairStep_sameGoodCandidates.
Qed.

(** X15.  NaN never loses the comparison of the sums: a pair that passes
    every cut is stored, whatever the outputs hold, when its sum is NaN, and
    whatever its sum, when the best sum so far is NaN. *)
Theorem nan_never_blocks_a_valid_pair
        (v : Variant) (t : ZTree) (i j : Z) (out : Output) :
  validPair v t i j = true ->
  is_num (sumPt v t i j) = false \/ is_num (maxPtDiLep out) = false ->
  innerBody v t i j out = selected v t i j.
Proof.
  intros Hv Hnan. apply valid_pair_is_stored; [ exact Hv | ].
  destruct (sumPt v t i j <? maxPtDiLep out) eqn:E; [ | reflexivity ].
  apply ltb_is_num in E. destruct E, Hnan; congruence.
Qed.

End Calls.

(* ================================================================== *)
(** * Further properties of the quality filters *)

Section FilterContracts.
Local Open Scope float_scope.

(** X10.  The filters see neither the charge nor the side of the detector:
    reversing the sign of every stored transverse momentum, or of every
    pseudorapidity, changes the answer of neither filter. *)
Theorem filters_ignore_charge_and_side (t : ZTree) (k : Z) :
  SelectEl (conjugate t) k = SelectEl t k
  /\ SelectMu (conjugate t) k = SelectMu t k
  /\ SelectEl (mirror t) k = SelectEl t k
  /\ SelectMu (mirror t) k = SelectMu t k.
Proof.
  unfold SelectEl, SelectMu. simpl. now rewrite !abs_opp.
Qed.

(** X11.  [SelectEl] on every input: the electron is accepted exactly when
    each of |pt| >= 20.0, |eta| <= 2.4 and isolation <= 0.17 holds or bears
    on a NaN, and no hit is missing. *)
Theorem SelectEl_accepts_nan_or_within_bounds (t : ZTree) (el : Z) :
  SelectEl t el
  = nanOr (elPt t el) (20.0 <=? abs (elPt t el))
    && nanOr (elEta t el) (abs (elEta t el) <=? 2.4)
    && nanOr (elIso03 t el) (elIso03 t el <=? 0.17)
    && (elMissHits t el =? 0)%N.
Proof.
  assert (Hpt : negb (abs (elPt t el) <? 20.0)
                = nanOr (elPt t el) (20.0 <=? abs (elPt t el))).
  { rewrite negb_ltb_nanOr by reflexivity. unfold nanOr. now rewrite is_num_abs. }
  assert (Heta : negb (gtb (abs (elEta t el)) 2.4)
                 = nanOr (elEta t el) (abs (elEta t el) <=? 2.4)).
  { rewrite negb_gtb_nanOr by reflexivity. unfold nanOr. now rewrite is_num_abs. }
  assert (Hiso : negb (gtb (elIso03 t el) 0.17)
                 = nanOr (elIso03 t el) (elIso03 t el <=? 0.17))
    by (now rewrite negb_gtb_nanOr).
  assert (Hhit : negb (0 <? elMissHits t el)%N = (elMissHits t el =? 0)%N).
  { destruct (N.eqb_spec (elMissHits t el) 0) as [-> | Hne]; [ reflexivity | ].
    apply Bool.negb_false_iff. apply N.ltb_lt. lia. }
  rewrite <- Hpt, <- Heta, <- Hiso, <- Hhit. unfold SelectEl.
  destruct (abs (elPt t el) <? 20.0), (gtb (abs (elEta t el)) 2.4),
           (gtb (elIso03 t el) 0.17), (0 <? elMissHits t el)%N; reflexivity.
Qed.

(** X12.  [SelectMu] on every input: the muon is accepted exactly when each
    of |pt| >= 20.0, |eta| <= 2.4, isolation <= 0.20, transverse impact
    parameter <= 0.02, longitudinal impact parameter <= 0.5 and
    chi-square/dof <= 10 holds or bears on a NaN, and the track has at
    least 12 tracker hits and 2 pixel hits. *)
Theorem SelectMu_accepts_nan_or_within_bounds (t : ZTree) (mu : Z) :
  SelectMu t mu
  = nanOr (muPt t mu) (20.0 <=? abs (muPt t mu))
    && nanOr (muEta t mu) (abs (muEta t mu) <=? 2.4)
    && nanOr (muIso03 t mu) (muIso03 t mu <=? 0.20)
    && (12 <=? muHitsValid t mu)%N && (2 <=? muHitsPixel t mu)%N
    && nanOr (muDistPV0 t mu) (muDistPV0 t mu <=? 0.02)
    && nanOr (muDistPVz t mu) (muDistPVz t mu <=? 0.5)
    && nanOr (muTrackChi2NDOF t mu) (muTrackChi2NDOF t mu <=? 10).
Proof.
  assert (Hpt : negb (abs (muPt t mu) <? 20.0)
                = nanOr (muPt t mu) (20.0 <=? abs (muPt t mu))).
  { rewrite negb_ltb_nanOr by reflexivity. unfold nanOr. now rewrite is_num_abs. }
  assert (Heta : negb (gtb (abs (muEta t mu)) 2.4)
                 = nanOr (muEta t mu) (abs (muEta t mu) <=? 2.4)).
  { rewrite negb_gtb_nanOr by reflexivity. unfold nanOr. now rewrite is_num_abs. }
  rewrite <- Hpt, <- Heta.
  rewrite <- !negb_gtb_nanOr by reflexivity.
  rewrite !N.leb_antisym. unfold SelectMu.
  destruct (abs (muPt t mu) <? 20.0), (gtb (abs (muEta t mu)) 2.4),
           (gtb (muIso03 t mu) 0.20), (muHitsValid t mu <? 12)%N,
           (muHitsPixel t mu <? 2)%N, (gtb (muDistPV0 t mu) 0.02),
           (gtb (muDistPVz t mu) 0.5), (gtb (muTrackChi2NDOF t mu) 10);
    reflexivity.
Qed.

End FilterContracts.

(* ================================================================== *)
(** * The selectors on the sample events *)

Section Runs.
Local Open Scope float_scope.

(** Replaces the candidate counts of a sample event by their values in a
    hypothesis on enumerated slots. *)
Local Ltac pin_counts Hij :=
  unfold enumerated in Hij;
  repeat match type of Hij with
         | context [Nel ?e] =>
             let n := eval vm_compute in (Nel e) in change (Nel e) with n in Hij
         | context [Nmu ?e] =>
             let n := eval vm_compute in (Nmu e) in change (Nmu e) with n in Hij
         end.

(** An electron of 30 GeV, negative, and a muon of 25 GeV, positive, back
    to back: the pair is stored with sum 55, the electron in [vecLepM] and
    the muon in [vecLepP]. *)
Example emu_pair_selected :
  SelectDilepEMu emuEvent (fresh 0) = selected EMu emuEvent 0 0
  /\ maxPtDiLep (SelectDilepEMu emuEvent (fresh 0)) = 55
  /\ vecLepM (SelectDilepEMu emuEvent (fresh 0)) = elVec emuEvent 0
  /\ vecLepP (SelectDilepEMu emuEvent (fresh 0)) = muVec emuEvent 0.
Proof. repeat split; vm_compute; reflexivity. Qed.

(** Two good electrons of opposite charge and invariant mass 90: no
    selection. *)
Example ee_pair_at_z_mass_vetoed :
  SelectEl zEvent 0 = true /\ SelectEl zEvent 1 = true
  /\ gtb (pairMass EE zEvent 0 1) 89.9 = true
  /\ (pairMass EE zEvent 0 1 <? 90.1) = true
  /\ SelectDilepEE zEvent (fresh 0) = fresh 0.
Proof. repeat split; vm_compute; reflexivity. Qed.

(** One missing hit on the electron track: the electron is not selected and
    takes part in no pair. *)
Example electron_with_missing_hit_excluded :
  SelectEl missingHitEvent 0 = false
  /\ SelectDilepEMu missingHitEvent (fresh 0) = fresh 0
  /\ SelectDilepEE missingHitEvent (fresh 0) = fresh 0.
Proof. repeat split; vm_compute; reflexivity. Qed.

Lemma last_best_pair_wins_witness :
  enumerated EMu tieEvent 0 1
  /\ validPair EMu tieEvent 0 1 = true
  /\ (maxPtDiLep (fresh 0) <=? sumPt EMu tieEvent 0 1) = true
  /\ (forall i j, enumerated EMu tieEvent i j -> validPair EMu tieEvent i j = true ->
                  (i < 0 \/ (i = 0 /\ j < 1))%Z ->
                  (sumPt EMu tieEvent i j <=? sumPt EMu tieEvent 0 1) = true)
  /\ (forall i j, enumerated EMu tieEvent i j -> validPair EMu tieEvent i j = true ->
                  (0 < i \/ (0 = i /\ 1 < j))%Z ->
                  (sumPt EMu tieEvent i j <? sumPt EMu tieEvent 0 1) = true)
  /\ SelectDilep EMu tieEvent (fresh 0) = selected EMu tieEvent 0 1.
Proof.
  assert (Hen : enumerated EMu tieEvent 0 1) by (vm_compute; intuition discriminate).
  assert (Hv : validPair EMu tieEvent 0 1 = true) by (vm_compute; reflexivity).
  assert (Hin : (maxPtDiLep (fresh 0) <=? sumPt EMu tieEvent 0 1) = true)
    by (vm_compute; reflexivity).
  assert (Hbefore : forall i j, enumerated EMu tieEvent i j ->
                      validPair EMu tieEvent i j = true ->
                      (i < 0 \/ (i = 0 /\ j < 1))%Z ->
                      (sumPt EMu tieEvent i j <=? sumPt EMu tieEvent 0 1) = true).
  { intros i j Hij _ Hpos. pin_counts Hij.
    assert (Hi : i = 0%Z) by lia. assert (Hj : j = 0%Z) by lia.
    subst i j. vm_compute. reflexivity. }
  assert (Hafter : forall i j, enumerated EMu tieEvent i j ->
                     validPair EMu tieEvent i j = true ->
                     (0 < i \/ (0 = i /\ 1 < j))%Z ->
                     (sumPt EMu tieEvent i j <? sumPt EMu tieEvent 0 1) = true).
  { intros i j Hij _ Hpos. pin_counts Hij. exfalso. lia. }
  split; [ exact Hen | ]. split; [ exact Hv | ]. split; [ exact Hin | ].
  split; [ exact Hbefore | ]. split; [ exact Hafter | ].
  exact (last_best_pair_wins EMu tieEvent (fresh 0) 0 1 Hen Hv Hin Hbefore Hafter).
Defined.

(** C1 fails as stated.  In [tieEvent] both electron-muon pairs pass every
    cut of [SelectDilepEMu] and both have sum 50.  Once the first pair is
    stored, the sum of the second is not above the best sum, yet the loop
    body overwrites the outputs with it: the call returns the second pair,
    and [vecLepP] is the second muon, not the first. *)
Lemma tie_keeps_later_pair :
  validPair EMu tieEvent 0 0 = true
  /\ validPair EMu tieEvent 0 1 = true
  /\ sumPt EMu tieEvent 0 0 = 50
  /\ sumPt EMu tieEvent 0 1 = 50
  /\ innerBody EMu tieEvent 0 0 (fresh 0) = selected EMu tieEvent 0 0
  /\ gtb (sumPt EMu tieEvent 0 1) (maxPtDiLep (selected EMu tieEvent 0 0)) = false
  /\ innerBody EMu tieEvent 0 1 (selected EMu tieEvent 0 0)
     <> selected EMu tieEvent 0 0
  /\ SelectDilepEMu tieEvent (fresh 0) = selected EMu tieEvent 0 1
  /\ vecLepP (SelectDilepEMu tieEvent (fresh 0)) = muVec tieEvent 1
  /\ muVec tieEvent 1 <> muVec tieEvent 0.
Proof.
  repeat split; try (vm_compute; reflexivity).
  - intros Heq.
    apply (f_equal (fun o : @Output RootOps => Root.fZ (vecLepP o) =? 0)) in Heq.
    vm_compute in Heq. discriminate.
  - intros Heq.
    apply (f_equal (fun u : Root.XYZT => Root.fZ u =? 0)) in Heq.
    vm_compute in Heq. discriminate.
Qed.

Lemma pair_skipped_only_when_strictly_below_witness :
  validPair EMu tieEvent 0 1 = true
  /\ (((sumPt EMu tieEvent 0 1 <? maxPtDiLep (selected EMu tieEvent 0 0)) = true ->
       innerBody EMu tieEvent 0 1 (selected EMu tieEvent 0 0)
       = selected EMu tieEvent 0 0)
      /\ ((sumPt EMu tieEvent 0 1 <? maxPtDiLep (selected EMu tieEvent 0 0)) = false ->
          innerBody EMu tieEvent 0 1 (selected EMu tieEvent 0 0)
          = selected EMu tieEvent 0 1)
      /\ (sumPt EMu tieEvent 0 1 = maxPtDiLep (selected EMu tieEvent 0 0) ->
          innerBody EMu tieEvent 0 1 (selected EMu tieEvent 0 0)
          = selected EMu tieEvent 0 1)).
Proof.
  split; [ vm_compute; reflexivity | ].
  apply (pair_skipped_only_when_strictly_below EMu tieEvent 0 1).
  vm_compute; reflexivity.
Defined.



Lemma z_window_vetoes_same_flavour_only_witness :
  ((forall i j, enumerated EE zEvent i j -> inZWindow EE zEvent i j = true)
   /\ SelectEl zEvent 0 = true /\ SelectEl zEvent 1 = true
   /\ SelectDilepEE zEvent (fresh 0) = fresh 0)
  /\ ((forall i j, enumerated MuMu zMuMuEvent i j -> inZWindow MuMu zMuMuEvent i j = true)
      /\ SelectMu zMuMuEvent 0 = true /\ SelectMu zMuMuEvent 1 = true
      /\ SelectDilepMuMu zMuMuEvent (fresh 0) = fresh 0)
  /\ (enumerated EMu zLikeEMuEvent 0 0
      /\ inZWindow EMu zLikeEMuEvent 0 0 = true
      /\ SelectDilepEMu zLikeEMuEvent (fresh 0) = selected EMu zLikeEMuEvent 0 0
      /\ SelectDilepEMu zLikeEMuEvent (fresh 0) <> fresh 0).
Proof.
  assert (Hee : forall i j, enumerated EE zEvent i j -> inZWindow EE zEvent i j = true).
  { intros i j Hij. pin_counts Hij.
    assert (Hi : i = 0%Z) by lia. assert (Hj : j = 1%Z) by lia.
    subst i j. vm_compute. reflexivity. }
  assert (Hmm : forall i j, enumerated MuMu zMuMuEvent i j ->
                  inZWindow MuMu zMuMuEvent i j = true).
  { intros i j Hij. pin_counts Hij.
    assert (Hi : i = 0%Z) by lia. assert (Hj : j = 1%Z) by lia.
    subst i j. vm_compute. reflexivity. }
  assert (Hen : enumerated EMu zLikeEMuEvent 0 0) by (vm_compute; intuition discriminate).
  assert (Hv : validPair EMu zLikeEMuEvent 0 0 = true) by (vm_compute; reflexivity).
  assert (Hwin : inZWindow EMu zLikeEMuEvent 0 0 = true) by (vm_compute; reflexivity).
  assert (Hin : (maxPtDiLep (fresh 0) <=? sumPt EMu zLikeEMuEvent 0 0) = true)
    by (vm_compute; reflexivity).
  assert (Hbefore : forall i' j', enumerated EMu zLikeEMuEvent i' j' ->
                      validPair EMu zLikeEMuEvent i' j' = true ->
                      (i' < 0 \/ (i' = 0 /\ j' < 0))%Z ->
                      (sumPt EMu zLikeEMuEvent i' j' <=? sumPt EMu zLikeEMuEvent 0 0) = true).
  { intros i' j' Hij _ Hpos. pin_counts Hij. exfalso. lia. }
  assert (Hafter : forall i' j', enumerated EMu zLikeEMuEvent i' j' ->
                     validPair EMu zLikeEMuEvent i' j' = true ->
                     (0 < i' \/ (0 = i' /\ 0 < j'))%Z ->
                     (sumPt EMu zLikeEMuEvent i' j' <? sumPt EMu zLikeEMuEvent 0 0) = true).
  { intros i' j' Hij _ Hpos. pin_counts Hij. exfalso. lia. }
  assert (Hsel : SelectDilepEMu zLikeEMuEvent (fresh 0) = selected EMu zLikeEMuEvent 0 0).
  { exact (proj2 (z_window_vetoes_same_flavour_only EMu zLikeEMuEvent (fresh 0))
                 eq_refl 0%Z 0%Z Hen Hv Hwin Hin Hbefore Hafter). }
  split; [ | split ].
  - split; [ exact Hee | ].
    split; [ vm_compute; reflexivity | ]. split; [ vm_compute; reflexivity | ].
    assert (Hsf : EE <> EMu) by discriminate.
    exact (proj1 (proj2 (proj1 (z_window_vetoes_same_flavour_only EE zEvent (fresh 0))
                               Hsf)) Hee).
  - split; [ exact Hmm | ].
    split; [ vm_compute; reflexivity | ]. split; [ vm_compute; reflexivity | ].
    assert (Hsf : MuMu <> EMu) by discriminate.
    exact (proj1 (proj2 (proj1 (z_window_vetoes_same_flavour_only MuMu zMuMuEvent (fresh 0))
                               Hsf)) Hmm).
  - split; [ exact Hen | ]. split; [ exact Hwin | ]. split; [ exact Hsel | ].
    rewrite Hsel. intros Heq.
    apply (f_equal (fun o : @Output RootOps => maxPtDiLep o =? 0)) in Heq.
    vm_compute in Heq. discriminate.
Defined.

(** C5 fails as stated.  In [nanEvent] the transverse momentum of the
    electron is NaN: the electron passes [SelectEl], the invariant mass of
    the pair is NaN, the test [M < 12.0] is false, and the pair is stored;
    its mass is not greater than or equal to 12.0. *)
Lemma nan_mass_pair_is_stored :
  innerBody EMu nanEvent 0 0 (fresh 0) <> fresh 0
  /\ SelectDilepEMu nanEvent (fresh 0) = selected EMu nanEvent 0 0
  /\ is_num (pairMass EMu nanEvent 0 0) = false
  /\ (12.0 <=? pairMass EMu nanEvent 0 0) = false.
Proof.
  repeat split; try (vm_compute; reflexivity).
  intros Heq.
  apply (f_equal (fun o : @Output RootOps => is_num (maxPtDiLep o))) in Heq.
  vm_compute in Heq. discriminate.
Qed.

Lemma mass_floor_witness :
  (belowMassFloor EMu lowMassEvent 0 0 = true
   /\ innerBody EMu lowMassEvent 0 0 (fresh 0) = fresh 0)
  /\ (innerBody EMu emuEvent 0 0 (fresh 0) <> fresh 0
      /\ (pairMass EMu emuEvent 0 0 <? 12.0) = false
      /\ (12.0 <=? pairMass EMu emuEvent 0 0) = is_num (pairMass EMu emuEvent 0 0)).
Proof.
  assert (Hlow : belowMassFloor EMu lowMassEvent 0 0 = true) by (vm_compute; reflexivity).
  assert (Hne : innerBody EMu emuEvent 0 0 (fresh 0) <> fresh 0).
  { intros Heq.
    apply (f_equal (fun o : @Output RootOps => maxPtDiLep o =? 0)) in Heq.
    vm_compute in Heq. discriminate. }
  split; [ split; [ exact Hlow | ] | split; [ exact Hne | ] ].
  - exact (proj1 (mass_floor EMu lowMassEvent 0 0 (fresh 0)) Hlow).
  - exact (proj2 (mass_floor EMu emuEvent 0 0 (fresh 0)) Hne).
Defined.

(** C6 fails as stated.  In [nanEvent] the product of the two signed
    transverse momenta is NaN: it is not above 0, so the pair goes on to
    the other cuts and is stored, and it is not at most 0 either. *)
Lemma nan_product_pair_proceeds :
  innerBody EMu nanEvent 0 0 (fresh 0) <> fresh 0
  /\ gtb (elPt nanEvent 0 * muPt nanEvent 0) 0 = false
  /\ (elPt nanEvent 0 * muPt nanEvent 0 <=? 0) = false.
Proof.
  repeat split; try (vm_compute; reflexivity).
  intros Heq.
  apply (f_equal (fun o : @Output RootOps => is_num (maxPtDiLep o))) in Heq.
  vm_compute in Heq. discriminate.
Qed.

Lemma same_sign_pairs_rejected_witness :
  (gtb (pt1 EMu sameSignEvent 0 * pt2 EMu sameSignEvent 0) 0 = true
   /\ innerBody EMu sameSignEvent 0 0 (fresh 0) = fresh 0)
  /\ (innerBody EMu emuEvent 0 0 (fresh 0) <> fresh 0
      /\ gtb (pt1 EMu emuEvent 0 * pt2 EMu emuEvent 0) 0 = false
      /\ (pt1 EMu emuEvent 0 * pt2 EMu emuEvent 0 <=? 0)
         = is_num (pt1 EMu emuEvent 0 * pt2 EMu emuEvent 0)).
Proof.
  assert (Hpos : gtb (pt1 EMu sameSignEvent 0 * pt2 EMu sameSignEvent 0) 0 = true)
    by (vm_compute; reflexivity).
  assert (Hne : innerBody EMu emuEvent 0 0 (fresh 0) <> fresh 0).
  { intros Heq.
    apply (f_equal (fun o : @Output RootOps => maxPtDiLep o =? 0)) in Heq.
    vm_compute in Heq. discriminate. }
  split; [ split; [ exact Hpos | ] | split; [ exact Hne | ] ].
  - exact (proj1 (same_sign_pairs_rejected EMu sameSignEvent 0 0 (fresh 0)) Hpos).
  - exact (proj2 (same_sign_pairs_rejected EMu emuEvent 0 0 (fresh 0)) Hne).
Defined.

(** C7 fails as stated.  In [nanEvent] the electron, whose transverse
    momentum is NaN, passes [SelectEl]; the pair is stored, the test
    [elPt < 0] is false, and [vecLepM] receives the muon, whose stored
    transverse momentum is +25: no member of the pair is negative. *)
Lemma nan_pt_puts_positive_muon_in_minus_slot :
  SelectEl nanEvent 0 = true
  /\ innerBody EMu nanEvent 0 0 (fresh 0) <> fresh 0
  /\ vecLepM (SelectDilepEMu nanEvent (fresh 0)) = muVec nanEvent 0
  /\ muPt nanEvent 0 = 25
  /\ (muPt nanEvent 0 <? 0) = false
  /\ (elPt nanEvent 0 <? 0) = false.
Proof.
  repeat split; try (vm_compute; reflexivity).
  intros Heq.
  apply (f_equal (fun o : @Output RootOps => is_num (maxPtDiLep o))) in Heq.
  vm_compute in Heq. discriminate.
Qed.

Lemma minus_slot_holds_negative_lepton_witness :
  (forall i j, enumerated EMu emuEvent i j ->
               is_num (pt1 EMu emuEvent i) = true /\ is_num (pt2 EMu emuEvent j) = true)
  /\ SelectDilep EMu emuEvent (fresh 0) <> fresh 0
  /\ (forall i j o, enumerated EMu emuEvent i j -> quality1 EMu emuEvent i = true ->
                    innerBody EMu emuEvent i j o <> o ->
                    chargeSorted EMu emuEvent i j (innerBody EMu emuEvent i j o))
  /\ (SelectDilep EMu emuEvent (fresh 0) = fresh 0
      \/ exists i j, enumerated EMu emuEvent i j
                     /\ chargeSorted EMu emuEvent i j (SelectDilep EMu emuEvent (fresh 0))).
Proof.
  assert (Hnum : forall i j, enumerated EMu emuEvent i j ->
                   is_num (pt1 EMu emuEvent i) = true
                   /\ is_num (pt2 EMu emuEvent j) = true).
  { intros i j Hij. pin_counts Hij.
    assert (Hi : i = 0%Z) by lia. assert (Hj : j = 0%Z) by lia.
    subst i j. split; vm_compute; reflexivity. }
  assert (Hne : SelectDilep EMu emuEvent (fresh 0) <> fresh 0).
  { intros Heq.
    apply (f_equal (fun o : @Output RootOps => maxPtDiLep o =? 0)) in Heq.
    vm_compute in Heq. discriminate. }
  split; [ exact Hnum | ]. split; [ exact Hne | ].
  exact (minus_slot_holds_negative_lepton EMu emuEvent (fresh 0) Hnum).
Defined.

(** C8 fails as stated.  An electron whose transverse momentum is NaN
    passes [SelectEl], although |pt| >= 20.0 does not hold for it. *)
Lemma nan_pt_electron_passes :
  SelectEl nanEvent 0 = true
  /\ (20.0 <=? abs (elPt nanEvent 0)) = false.
Proof. split; vm_compute; reflexivity. Qed.

Lemma SelectEl_on_numbers_witness :
  is_num (elPt thresholdEvent 0) = true
  /\ is_num (elEta thresholdEvent 0) = true
  /\ is_num (elIso03 thresholdEvent 0) = true
  /\ elPt thresholdEvent 0 = 20.0 /\ elEta thresholdEvent 0 = 2.4
  /\ elIso03 thresholdEvent 0 = 0.17 /\ elMissHits thresholdEvent 0 = 0%N
  /\ SelectEl thresholdEvent 0 = true.
Proof.
  assert (N1 : is_num (elPt thresholdEvent 0) = true) by (vm_compute; reflexivity).
  assert (N2 : is_num (elEta thresholdEvent 0) = true) by (vm_compute; reflexivity).
  assert (N3 : is_num (elIso03 thresholdEvent 0) = true) by (vm_compute; reflexivity).
  repeat (split; [ vm_compute; reflexivity | ]).
  apply (proj2 (SelectEl_on_numbers thresholdEvent 0 N1 N2 N3)).
  repeat split; vm_compute; reflexivity.
Defined.

(** C9 fails as stated.  A muon whose transverse momentum is NaN passes
    [SelectMu], although |pt| >= 20.0 does not hold for it. *)
Lemma nan_pt_muon_passes :
  SelectMu nanMuEvent 0 = true
  /\ (20.0 <=? abs (muPt nanMuEvent 0)) = false.
Proof. split; vm_compute; reflexivity. Qed.

Lemma SelectMu_on_numbers_witness :
  is_num (muPt thresholdEvent 0) = true
  /\ is_num (muEta thresholdEvent 0) = true
  /\ is_num (muIso03 thresholdEvent 0) = true
  /\ is_num (muDistPV0 thresholdEvent 0) = true
  /\ is_num (muDistPVz thresholdEvent 0) = true
  /\ is_num (muTrackChi2NDOF thresholdEvent 0) = true
  /\ muPt thresholdEvent 0 = 20.0 /\ muEta thresholdEvent 0 = 2.4
  /\ muIso03 thresholdEvent 0 = 0.20
  /\ muHitsValid thresholdEvent 0 = 12%N /\ muHitsPixel thresholdEvent 0 = 2%N
  /\ muDistPV0 thresholdEvent 0 = 0.02 /\ muDistPVz thresholdEvent 0 = 0.5
  /\ muTrackChi2NDOF thresholdEvent 0 = 10
  /\ SelectMu thresholdEvent 0 = true.
Proof.
  assert (N1 : is_num (muPt thresholdEvent 0) = true) by (vm_compute; reflexivity).
  assert (N2 : is_num (muEta thresholdEvent 0) = true) by (vm_compute; reflexivity).
  assert (N3 : is_num (muIso03 thresholdEvent 0) = true) by (vm_compute; reflexivity).
  assert (N4 : is_num (muDistPV0 thresholdEvent 0) = true) by (vm_compute; reflexivity).
  assert (N5 : is_num (muDistPVz thresholdEvent 0) = true) by (vm_compute; reflexivity).
  assert (N6 : is_num (muTrackChi2NDOF thresholdEvent 0) = true)
    by (vm_compute; reflexivity).
  repeat (split; [ vm_compute; reflexivity | ]).
  apply (proj2 (SelectMu_on_numbers thresholdEvent 0 N1 N2 N3 N4 N5 N6)).
  repeat split; vm_compute; try reflexivity; discriminate.
Defined.

(** C10 fails as stated.  On [nanEvent], entered with best sum 0, the
    e-mu selector stores the pair with the NaN electron and leaves NaN in
    [maxPtDiLep]: the value on exit is not greater than or equal to the
    value on entry. *)
Lemma nan_pair_lowers_best_sum :
  maxPtDiLep (fresh 0) = 0
  /\ is_num (maxPtDiLep (SelectDilepEMu nanEvent (fresh 0))) = false
  /\ (maxPtDiLep (fresh 0) <=? maxPtDiLep (SelectDilepEMu nanEvent (fresh 0))) = false.
Proof. repeat split; vm_compute; reflexivity. Qed.

Lemma best_sum_never_decreases_witness :
  is_num (maxPtDiLep (fresh 0)) = true
  /\ (forall v i j, In v [EMu; EE; MuMu] -> enumerated v tieEvent i j ->
                    validPair v tieEvent i j = true ->
                    is_num (sumPt v tieEvent i j) = true)
  /\ (maxPtDiLep (fresh 0) <=? maxPtDiLep (chain [EMu; EE; MuMu] tieEvent (fresh 0))) = true
  /\ (forall v i j, In v [EMu; EE; MuMu] -> enumerated v tieEvent i j ->
                    validPair v tieEvent i j = true ->
                    (sumPt v tieEvent i j
                     <=? maxPtDiLep (chain [EMu; EE; MuMu] tieEvent (fresh 0))) = true)
  /\ (maxPtDiLep (chain [EMu; EE; MuMu] tieEvent (fresh 0)) = maxPtDiLep (fresh 0)
      \/ exists v i j, In v [EMu; EE; MuMu] /\ enumerated v tieEvent i j
                       /\ validPair v tieEvent i j = true
                       /\ maxPtDiLep (chain [EMu; EE; MuMu] tieEvent (fresh 0))
                          = sumPt v tieEvent i j).
Proof.
  assert (N0 : is_num (maxPtDiLep (fresh 0)) = true) by (vm_compute; reflexivity).
  assert (Hs : forall v i j, In v [EMu; EE; MuMu] -> enumerated v tieEvent i j ->
                 validPair v tieEvent i j = true ->
                 is_num (sumPt v tieEvent i j) = true).
  { intros v i j _ Hij Hv. destruct v; pin_counts Hij.
    - assert (Hi : i = 0%Z) by lia. assert (Hj : j = 0%Z \/ j = 1%Z) by lia.
      subst i. destruct Hj; subst j; vm_compute; reflexivity.
    - exfalso. lia.
    - assert (Hi : i = 0%Z) by lia. assert (Hj : j = 1%Z) by lia.
      subst i j. vm_compute in Hv. discriminate Hv. }
  split; [ exact N0 | ]. split; [ exact Hs | ].
  exact (best_sum_never_decreases [EMu; EE; MuMu] tieEvent (fresh 0) N0 Hs).
Defined.

Lemma too_few_candidates_no_update_witness :
  tooFewCandidates EE emuEvent
  /\ SelectDilep EE emuEvent (filled 0) = filled 0.
Proof.
  assert (Hfew : tooFewCandidates EE emuEvent) by (vm_compute; discriminate).
  split; [ exact Hfew | ].
  exact (too_few_candidates_no_update EE emuEvent (filled 0) Hfew).
Defined.

Lemma call_reads_populated_slots_only_witness :
  sameCandidates EMu emuEvent (padded emuEvent)
  /\ elPt emuEvent 1 <> elPt (padded emuEvent) 1
  /\ SelectDilep EMu emuEvent (fresh 0) = SelectDilep EMu (padded emuEvent) (fresh 0).
Proof.
  assert (Hsame : sameCandidates EMu emuEvent (padded emuEvent)).
  { split; (split; [ reflexivity | ]); intros i Hi.
    - change (Nel emuEvent) with 1%Z in Hi. assert (Hz : i = 0%Z) by lia. subst i.
      repeat split; vm_compute; reflexivity.
    - change (Nmu emuEvent) with 1%Z in Hi. assert (Hz : i = 0%Z) by lia. subst i.
      repeat split; vm_compute; reflexivity. }
  split; [ exact Hsame | ]. split.
  - intros Heq. apply (f_equal (fun x => x =? 0)) in Heq.
    vm_compute in Heq. discriminate.
  - exact (call_reads_populated_slots_only EMu emuEvent (padded emuEvent) (fresh 0) Hsame).
Defined.

Lemma entry_vectors_never_read_witness :
  maxPtDiLep (fresh 0) = maxPtDiLep (filled 0)
  /\ ((SelectDilep EMu emuEvent (fresh 0) = fresh 0
       /\ SelectDilep EMu emuEvent (filled 0) = filled 0)
      \/ SelectDilep EMu emuEvent (fresh 0) = SelectDilep EMu emuEvent (filled 0)).
Proof.
  assert (Hmax : maxPtDiLep (fresh 0) = maxPtDiLep (filled 0)) by reflexivity.
  split; [ exact Hmax | ].
  exact (entry_vectors_never_read EMu emuEvent (fresh 0) (filled 0) Hmax).
Defined.

Lemma best_above_every_sum_no_update_witness :
  (forall i j, enumerated EMu tieEvent i j -> validPair EMu tieEvent i j = true ->
               (sumPt EMu tieEvent i j <? maxPtDiLep (filled 100)) = true)
  /\ SelectDilep EMu tieEvent (filled 100) = filled 100.
Proof.
  assert (Habove : forall i j, enumerated EMu tieEvent i j ->
                     validPair EMu tieEvent i j = true ->
                     (sumPt EMu tieEvent i j <? maxPtDiLep (filled 100)) = true).
  { intros i j Hij _. pin_counts Hij.
    assert (Hi : i = 0%Z) by lia. assert (Hj : j = 0%Z \/ j = 1%Z) by lia.
    subst i. destruct Hj; subst j; vm_compute; reflexivity. }
  split; [ exact Habove | ].
  exact (best_above_every_sum_no_update EMu tieEvent (filled 100) Habove).
Defined.

Lemma valid_pair_not_below_entry_selects_witness :
  enumerated EMu tieEvent 0 0
  /\ validPair EMu tieEvent 0 0 = true
  /\ (sumPt EMu tieEvent 0 0 <? maxPtDiLep (fresh 50)) = false
  /\ exists i' j', enumerated EMu tieEvent i' j' /\ validPair EMu tieEvent i' j' = true
                   /\ SelectDilep EMu tieEvent (fresh 50) = selected EMu tieEvent i' j'.
Proof.
  assert (Hen : enumerated EMu tieEvent 0 0) by (vm_compute; intuition discriminate).
  assert (Hv : validPair EMu tieEvent 0 0 = true) by (vm_compute; reflexivity).
  assert (Hlt : (sumPt EMu tieEvent 0 0 <? maxPtDiLep (fresh 50)) = false)
    by (vm_compute; reflexivity).
  split; [ exact Hen | ]. split; [ exact Hv | ]. split; [ exact Hlt | ].
  exact (valid_pair_not_below_entry_selects EMu tieEvent (fresh 50) 0 0 Hen Hv Hlt).
Defined.

Lemma selecting_twice_changes_nothing_witness :
  is_num (maxPtDiLep (fresh 0)) = true
  /\ (forall i j, enumerated EMu tieEvent i j -> validPair EMu tieEvent i j = true ->
                  is_num (sumPt EMu tieEvent i j) = true)
  /\ SelectDilep EMu tieEvent (fresh 0) <> fresh 0
  /\ SelectDilep EMu tieEvent (SelectDilep EMu tieEvent (fresh 0))
     = SelectDilep EMu tieEvent (fresh 0).
Proof.
  assert (N0 : is_num (maxPtDiLep (fresh 0)) = true) by (vm_compute; reflexivity).
  assert (Hs : forall i j, enumerated EMu tieEvent i j ->
                 validPair EMu tieEvent i j = true ->
                 is_num (sumPt EMu tieEvent i j) = true).
  { intros i j Hij _. pin_counts Hij.
    assert (Hi : i = 0%Z) by lia. assert (Hj : j = 0%Z \/ j = 1%Z) by lia.
    subst i. destruct Hj; subst j; vm_compute; reflexivity. }
  split; [ exact N0 | ]. split; [ exact Hs | ]. split.
  - intros Heq.
    apply (f_equal (fun o : @Output RootOps => maxPtDiLep o =? 0)) in Heq.
    vm_compute in Heq. discriminate.
  - exact (selecting_twice_changes_nothing EMu tieEvent (fresh 0) N0 Hs).
Defined.

Lemma charge_reversal_swaps_slots_witness :
  (forall i j, enumerated EMu emuEvent i j ->
               is_num (pt1 EMu emuEvent i) = true /\ is_num (pt2 EMu emuEvent j) = true)
  /\ vecLepM (SelectDilep EMu emuEvent (fresh 0)) = elVec emuEvent 0
  /\ vecLepP (SelectDilep EMu (conjugate emuEvent) (swapSlots (fresh 0)))
     = elVec emuEvent 0
  /\ SelectDilep EMu (conjugate emuEvent) (swapSlots (fresh 0))
     = swapSlots (SelectDilep EMu emuEvent (fresh 0)).
Proof.
  assert (Hnum : forall i j, enumerated EMu emuEvent i j ->
                   is_num (pt1 EMu emuEvent i) = true
                   /\ is_num (pt2 EMu emuEvent j) = true).
  { intros i j Hij. pin_counts Hij.
    assert (Hi : i = 0%Z) by lia. assert (Hj : j = 0%Z) by lia.
    subst i j. split; vm_compute; reflexivity. }
  split; [ exact Hnum | ].
  split; [ vm_compute; reflexivity | ]. split; [ vm_compute; reflexivity | ].
  exact (charge_reversal_swaps_slots EMu emuEvent (fresh 0) Hnum).
Defined.

Lemma sentinel_choice_is_irrelevant_witness :
  (forall i j, enumerated EMu tieEvent i j -> validPair EMu tieEvent i j = true ->
               (maxPtDiLep (fresh 0) <? sumPt EMu tieEvent i j) = true
               /\ (maxPtDiLep (filled (-5)) <? sumPt EMu tieEvent i j) = true)
  /\ ((SelectDilep EMu tieEvent (fresh 0) = fresh 0
       /\ SelectDilep EMu tieEvent (filled (-5)) = filled (-5))
      \/ SelectDilep EMu tieEvent (fresh 0) = SelectDilep EMu tieEvent (filled (-5))).
Proof.
  assert (Hbelow : forall i j, enumerated EMu tieEvent i j ->
                     validPair EMu tieEvent i j = true ->
                     (maxPtDiLep (fresh 0) <? sumPt EMu tieEvent i j) = true
                     /\ (maxPtDiLep (filled (-5)) <? sumPt EMu tieEvent i j) = true).
  { intros i j Hij _. pin_counts Hij.
    assert (Hi : i = 0%Z) by lia. assert (Hj : j = 0%Z \/ j = 1%Z) by lia.
    subst i. destruct Hj; subst j; split; vm_compute; reflexivity. }
  split; [ exact Hbelow | ].
  exact (sentinel_choice_is_irrelevant EMu tieEvent (fresh 0) (filled (-5)) Hbelow).
Defined.

Lemma rejected_candidates_have_no_influence_witness :
  sameGoodCandidates EMu spectatorEvent otherSpectatorEvent
  /\ elPt spectatorEvent 1 <> elPt otherSpectatorEvent 1
  /\ SelectDilep EMu spectatorEvent (fresh 0) = selected EMu spectatorEvent 0 0
  /\ SelectDilep EMu spectatorEvent (fresh 0)
     = SelectDilep EMu otherSpectatorEvent (fresh 0).
Proof.
  assert (Hsame : sameGoodCandidates EMu spectatorEvent otherSpectatorEvent).
  { split; (split; [ reflexivity | ]); intros i Hi.
    - change (Nel spectatorEvent) with 2%Z in Hi.
      assert (Hz : i = 0%Z \/ i = 1%Z) by lia. destruct Hz; subst i.
      + right. repeat split; vm_compute; reflexivity.
      + left. split; vm_compute; reflexivity.
    - change (Nmu spectatorEvent) with 1%Z in Hi.
      assert (Hz : i = 0%Z) by lia. subst i.
      right. repeat split; vm_compute; reflexivity. }
  split; [ exact Hsame | ]. split; [ | split; [ vm_compute; reflexivity | ] ].
  - intros Heq. apply (f_equal (fun x => x <? 0)) in Heq.
    vm_compute in Heq. discriminate.
  - exact (rejected_candidates_have_no_influence
             EMu spectatorEvent otherSpectatorEvent (fresh 0) Hsame).
Defined.

Lemma nan_never_blocks_a_valid_pair_witness :
  validPair EMu nanEvent 0 0 = true
  /\ (is_num (sumPt EMu nanEvent 0 0) = false \/ is_num (maxPtDiLep (filled 1000)) = false)
  /\ innerBody EMu nanEvent 0 0 (filled 1000) = selected EMu nanEvent 0 0.
Proof.
  assert (Hv : validPair EMu nanEvent 0 0 = true) by (vm_compute; reflexivity).
  assert (Hn : is_num (sumPt EMu nanEvent 0 0) = false
               \/ is_num (maxPtDiLep (filled 1000)) = false)
    by (left; vm_compute; reflexivity).
  split; [ exact Hv | ]. split; [ exact Hn | ].
  exact (nan_never_blocks_a_valid_pair EMu nanEvent 0 0 (filled 1000) Hv Hn).
Defined.

End Runs.
